(** * HOL_Queue.h: the generic ring buffer and its string adapter

    A shallow embedding of [DECLARE_QUEUE(TYPE, SIZE)] and of
    [DECLARE_STRING_QUEUE(STRING_SIZE, QUEUE_SIZE)]; the logger of
    HOL_Logger.h, [DECLARE_LOG(TAG, MAX_LENGTH, RETTYPE)], follows them.

    Conventions of the embedding:
    - a C pointer argument is a [ptr A]: [NULL], or [Ref a] where [a] is the
      current content of the pointee; a function returns the content of every
      pointee it may write, after the call;
    - [size_t] is a [Z] in [[0, 2 ^ size_bits)]; the wrap-around of [+ 1]
      and [- 1] is written out with [size_wrap];
    - an array is a [list]; an access outside the array is undefined in C and
      makes the embedded function return [None]. *)

From Stdlib Require Import ZArith Ascii String.
From stdpp Require Import base tactics option numbers list strings.

Local Open Scope Z_scope.

(** ** Pointers and arrays *)

Inductive ptr (A : Type) : Type :=
  | NULL : ptr A
  | Ref : A → ptr A.
Arguments NULL {A}.
Arguments Ref {A} _.

(** [a[i]] as an rvalue. *)
Definition load {A} (a : list A) (i : Z) : option A :=
  if decide (0 ≤ i) then a !! Z.to_nat i else None.

(** [a[i] = x]. *)
Definition store {A} (a : list A) (i : Z) (x : A) : option (list A) :=
  if decide (0 ≤ i < Z.of_nat (length a)) then Some (<[Z.to_nat i := x]> a)
  else None.

(** ** DECLARE_QUEUE_STATUS *)

Inductive queue_status_e : Set :=
  | QUEUE_OK
  | QUEUE_ERROR_NULL_POINTER
  | QUEUE_ERROR_EMPTY
  | QUEUE_ERROR_FULL
  | QUEUE_ERROR_INVALID_LENGTH.

(** ** DECLARE_QUEUE *)

Section Queue.
Context {TYPE : Type}.
(** Width of [size_t] on the target. *)
Variable size_bits : Z.
(** Queue capacity, the macro parameter. *)
Variable SIZE : Z.

Definition size_wrap (z : Z) : Z := z `mod` 2 ^ size_bits.

Record queue_t : Type := Queue {
  buffer : list TYPE;
  write_index : Z;
  read_index : Z;
  count : Z
}.

Definition queue_initialize (self : ptr queue_t)
    : queue_status_e * ptr queue_t :=
  match self with
  | NULL => (QUEUE_ERROR_NULL_POINTER, NULL)
  | Ref q => (QUEUE_OK, Ref (Queue (buffer q) 0 0 0))
  end.

Definition queue_is_empty (self : ptr queue_t) : bool :=
  match self with
  | NULL => true
  | Ref q => bool_decide (count q = 0)
  end.

Definition queue_is_full (self : ptr queue_t) : bool :=
  match self with
  | NULL => false
  | Ref q => bool_decide (SIZE ≤ count q)
  end.

Definition queue_count (self : ptr queue_t) : Z :=
  match self with
  | NULL => 0
  | Ref q => count q
  end.

Definition queue_available_space (self : ptr queue_t) : Z :=
  match self with
  | NULL => 0
  | Ref q => size_wrap (SIZE - count q)
  end.

Definition queue_push (self : ptr queue_t) (data : TYPE)
    : option (queue_status_e * ptr queue_t) :=
  match self with
  | NULL => Some (QUEUE_ERROR_NULL_POINTER, NULL)
  | Ref q =>
      (* Handle full buffer (overwrite oldest data) *)
      let q1 :=
        if decide (SIZE ≤ count q)
        then Queue (buffer q) (write_index q)
                   (size_wrap (read_index q + 1) `mod` SIZE) (count q)
        else Queue (buffer q) (write_index q) (read_index q)
                   (size_wrap (count q + 1)) in
      (* Write data *)
      b ← store (buffer q1) (write_index q1) data;
      Some (QUEUE_OK,
            Ref (Queue b (size_wrap (write_index q1 + 1) `mod` SIZE)
                       (read_index q1) (count q1)))
  end.

Definition queue_push_no_overwrite (self : ptr queue_t) (data : TYPE)
    : option (queue_status_e * ptr queue_t) :=
  match self with
  | NULL => Some (QUEUE_ERROR_NULL_POINTER, NULL)
  | Ref q =>
      if decide (SIZE ≤ count q) then Some (QUEUE_ERROR_FULL, Ref q)
      else
        b ← store (buffer q) (write_index q) data;
        Some (QUEUE_OK,
              Ref (Queue b (size_wrap (write_index q + 1) `mod` SIZE)
                         (read_index q) (size_wrap (count q + 1))))
  end.

Definition queue_pull (self : ptr queue_t) (data : ptr TYPE)
    : option (queue_status_e * ptr queue_t * ptr TYPE) :=
  match self, data with
  | Ref q, Ref _ =>
      if decide (count q = 0) then Some (QUEUE_ERROR_EMPTY, self, data)
      else
        x ← load (buffer q) (read_index q);
        Some (QUEUE_OK,
              Ref (Queue (buffer q) (write_index q)
                         (size_wrap (read_index q + 1) `mod` SIZE)
                         (size_wrap (count q - 1))),
              Ref x)
  | _, _ => Some (QUEUE_ERROR_NULL_POINTER, self, data)
  end.

(** The body of the [for] loop of [queue_pull_multiple], run [n] times
    from index [i]; [i] stays below [actual_length], so [i++] never
    wraps. *)
Fixpoint pull_multiple_loop (n : nat) (i : Z) (q : queue_t)
    (data_out : list TYPE) : option (queue_t * list TYPE) :=
  match n with
  | O => Some (q, data_out)
  | S n' =>
      x ← load (buffer q) (read_index q);
      out ← store data_out i x;
      pull_multiple_loop n' (i + 1)
        (Queue (buffer q) (write_index q)
               (size_wrap (read_index q + 1) `mod` SIZE)
               (size_wrap (count q - 1)))
        out
  end.

Definition queue_pull_multiple (self : ptr queue_t)
    (data_out : ptr (list TYPE)) (length : Z) (read_count : ptr Z)
    : option (queue_status_e * ptr queue_t * ptr (list TYPE) * ptr Z) :=
  match self, data_out with
  | Ref q, Ref out =>
      if decide (length = 0)
      then Some (QUEUE_ERROR_NULL_POINTER, self, data_out, read_count)
      else if decide (count q = 0)
      then Some (QUEUE_ERROR_EMPTY, self, data_out,
                 match read_count with NULL => NULL | Ref _ => Ref 0 end)
      else
        (* Limit read length to available data *)
        let actual_length :=
          if decide (length > count q) then count q else length in
        '(q', out') ← pull_multiple_loop (Z.to_nat actual_length) 0 q out;
        Some (QUEUE_OK, Ref q', Ref out',
              match read_count with
              | NULL => NULL
              | Ref _ => Ref actual_length
              end)
  | _, _ => Some (QUEUE_ERROR_NULL_POINTER, self, data_out, read_count)
  end.

Definition queue_peek (self : ptr queue_t) (data : ptr TYPE)
    : option (queue_status_e * ptr queue_t * ptr TYPE) :=
  match self, data with
  | Ref q, Ref _ =>
      if decide (count q = 0) then Some (QUEUE_ERROR_EMPTY, self, data)
      else
        x ← load (buffer q) (read_index q);
        Some (QUEUE_OK, self, Ref x)
  | _, _ => Some (QUEUE_ERROR_NULL_POINTER, self, data)
  end.

(** The pointer returned is [&self->buffer[read_index]]: [Some] of the
    index of the slot it points to, or [None] for [NULL]. *)
Definition queue_peek_ptr (self : ptr queue_t) : option Z :=
  match self with
  | NULL => None
  | Ref q => if decide (count q = 0) then None else Some (read_index q)
  end.

Definition queue_clear (self : ptr queue_t) : ptr queue_t :=
  match self with
  | NULL => NULL
  | Ref q => Ref (Queue (buffer q) 0 0 0)
  end.

(** *** Client programs and abstraction *)

(** [queue_push] called once per value of [vs], in order. *)
Fixpoint push_each (self : ptr queue_t) (vs : list TYPE)
    : option (list queue_status_e * ptr queue_t) :=
  match vs with
  | [] => Some ([], self)
  | v :: vs' =>
      '(st, self') ← queue_push self v;
      '(sts, self'') ← push_each self' vs';
      Some (st :: sts, self'')
  end.

(** [queue_pull] called [n] times with the same output variable; the
    status and the content of the output variable after each call. *)
Fixpoint pull_each (self : ptr queue_t) (n : nat) (data : ptr TYPE)
    : option (list (queue_status_e * ptr TYPE) * ptr queue_t) :=
  match n with
  | O => Some ([], self)
  | S n' =>
      '(st, self', data') ← queue_pull self data;
      '(rs, self'') ← pull_each self' n' data';
      Some ((st, data') :: rs, self'')
  end.

(** [queue_push_no_overwrite] called once per value of [vs], in order. *)
Fixpoint push_no_overwrite_each (self : ptr queue_t) (vs : list TYPE)
    : option (list queue_status_e * ptr queue_t) :=
  match vs with
  | [] => Some ([], self)
  | v :: vs' =>
      '(st, self') ← queue_push_no_overwrite self v;
      '(sts, self'') ← push_no_overwrite_each self' vs';
      Some (st :: sts, self'')
  end.

(** One call on a valid or invalid handle; only the queue is kept. *)
Inductive op : Type :=
  | OpInitialize
  | OpPush (data : TYPE)
  | OpPushNoOverwrite (data : TYPE)
  | OpPull (data : ptr TYPE)
  | OpPullMultiple (data_out : ptr (list TYPE)) (len : Z)
                   (read_count : ptr Z)
  | OpPeek (data : ptr TYPE)
  | OpClear.

Definition exec (o : op) (self : ptr queue_t) : option (ptr queue_t) :=
  match o with
  | OpInitialize => Some (queue_initialize self).2
  | OpPush v => r ← queue_push self v; Some r.2
  | OpPushNoOverwrite v => r ← queue_push_no_overwrite self v; Some r.2
  | OpPull d => r ← queue_pull self d; Some r.1.2
  | OpPullMultiple out len rc =>
      r ← queue_pull_multiple self out len rc; Some r.1.1.2
  | OpPeek d => r ← queue_peek self d; Some r.1.2
  | OpClear => Some (queue_clear self)
  end.

Fixpoint run (os : list op) (self : ptr queue_t) : option (ptr queue_t) :=
  match os with
  | [] => Some self
  | o :: os' => self' ← exec o self; run os' self'
  end.

(** The caller of [queue_pull_multiple] passes an array with room for
    [length] elements. *)
Definition op_ok (o : op) : Prop :=
  match o with
  | OpPullMultiple (Ref out) len _ => len ≤ Z.of_nat (length out)
  | _ => True
  end.

(** The struct holds [TYPE buffer[SIZE]]. *)
Definition queue_typed (q : queue_t) : Prop :=
  length (buffer q) = Z.to_nat SIZE.

(** The invariant of section 3 of the specification: the indices are
    slots, the count is at most the capacity, and the write index is
    [count] slots after the read index. *)
Definition wf (q : queue_t) : Prop :=
  queue_typed q ∧
  0 ≤ read_index q < SIZE ∧
  0 ≤ count q ≤ SIZE ∧
  write_index q = (read_index q + count q) `mod` SIZE.

(** The live elements, oldest first: the [count] slots from
    [read_index] on, circularly. *)
Definition live (q : queue_t) : list TYPE :=
  take (Z.to_nat (count q))
       (rotate (Z.to_nat (read_index q)) (buffer q)).

End Queue.

Arguments queue_t : clear implicits.
Arguments op : clear implicits.

(** ** <string.h> *)

Definition NUL : ascii := Ascii.zero.

(** The padding of [strncpy]: [n] null characters written to [dest]. *)
Fixpoint zero_fill (dest : list ascii) (n : nat) {struct n}
    : option (list ascii) :=
  match n with
  | O => Some dest
  | S n' =>
      match dest with
      | _ :: dest' => cons NUL <$> zero_fill dest' n'
      | [] => None
      end
  end.

(** [strncpy(dest, src, n)] of the C library (C11 7.24.2.4): at most [n]
    characters are copied from [src], stopping after a null character; if
    [src] is shorter than [n], null characters are appended until [n]
    characters in all have been written. [dest] and [src] are the arrays
    from the two pointers on. *)
Fixpoint strncpy (dest src : list ascii) (n : nat) {struct n}
    : option (list ascii) :=
  match n with
  | O => Some dest
  | S n' =>
      match dest, src with
      | _ :: dest', c :: src' =>
          if decide (c = NUL) then zero_fill dest (S n')
          else cons c <$> strncpy dest' src' n'
      | _, _ => None
      end
  end.

(** The string held by a character array: the characters before the first
    null character. *)
Fixpoint c_str (a : list ascii) : list ascii :=
  match a with
  | [] => []
  | c :: a' => if decide (c = NUL) then [] else c :: c_str a'
  end.

(** ** DECLARE_STRING_QUEUE *)

Record str_t : Type := Str { data : list ascii }.

Section StringQueue.
Variable size_bits : Z.
Variable STRING_SIZE : Z.
Variable QUEUE_SIZE : Z.

(** [item] is the content of the uninitialised local [item] on entry. *)
Definition queue_push_with_string_support (queue : ptr (queue_t str_t))
    (str : ptr (list ascii)) (item : str_t) : option (ptr (queue_t str_t)) :=
  match queue, str with
  | Ref _, Ref s =>
      d ← strncpy (data item) s (Z.to_nat (size_wrap size_bits (STRING_SIZE - 1)));
      d' ← store d (STRING_SIZE - 1) NUL;
      r ← queue_push size_bits QUEUE_SIZE queue (Str d');
      Some r.2
  | _, _ => Some queue
  end.

(** [item] is the content of the uninitialised local [item] on entry. *)
Definition queue_pull_with_string_support (queue : ptr (queue_t str_t))
    (output : ptr (list ascii)) (max_len : Z) (item : str_t)
    : option (Z * ptr (queue_t str_t) * ptr (list ascii)) :=
  match queue, output with
  | Ref _, Ref out =>
      if decide (max_len = 0) then Some (0, queue, output)
      else
        '(st, queue', item') ← queue_pull size_bits QUEUE_SIZE queue (Ref item);
        match st, item' with
        | QUEUE_OK, Ref it =>
            o ← strncpy out (data it) (Z.to_nat (size_wrap size_bits (max_len - 1)));
            o' ← store o (size_wrap size_bits (max_len - 1)) NUL;
            Some (1, queue', Ref o')
        | _, _ => Some (0, queue', output)
        end
  | _, _ => Some (0, queue, output)
  end.

End StringQueue.

(** * HOL_Logger.h: the tag-scoped logger *)

(** ** <stdio.h> *)

(** What a format string and its arguments expand to: a text, whose length
    is the [int] that [snprintf] returns, or an encoding error, for which
    it returns a negative value. *)
Inductive format_result : Type :=
  | FormatError
  | Formatted (text : list ascii).

(** [snprintf(&buf[off], n, fmt, ...)] and [vsnprintf] of the C library
    (C11 7.21.6.5): with [n = 0] nothing is written; otherwise the first
    [n - 1] characters of the expansion at most are written, and a null
    character after them. The result is the array and the value
    returned. *)
Definition snprintf (buf : list ascii) (off n : Z) (f : format_result)
    : option (list ascii * Z) :=
  match f with
  | FormatError => Some (buf, -1)
  | Formatted text =>
      if decide (n = 0) then Some (buf, Z.of_nat (length text))
      else
        let k := Z.to_nat (Z.of_nat (length text) `min` (n - 1)) in
        if decide (0 ≤ off ∧ off + Z.of_nat k < Z.of_nat (length buf))
        then Some (take (Z.to_nat off) buf ++ take k text
                   ++ NUL :: drop (Z.to_nat off + k + 1) buf,
                   Z.of_nat (length text))
        else None
  end.

(** ** DECLARE_LOG *)

Inductive log_level_e : Set :=
  | LOG_LEVEL_DEBUG
  | LOG_LEVEL_INFO
  | LOG_LEVEL_WARNING
  | LOG_LEVEL_ERROR
  | LOG_LEVEL_NONE.

(** The value of an enumerator. *)
Definition level_value (l : log_level_e) : Z :=
  match l with
  | LOG_LEVEL_DEBUG => 0
  | LOG_LEVEL_INFO => 1
  | LOG_LEVEL_WARNING => 2
  | LOG_LEVEL_ERROR => 3
  | LOG_LEVEL_NONE => 4
  end.

Definition CR : ascii := "013"%char.
Definition LF : ascii := "010"%char.

Section Logger.
(** The functions a callback pointer can point to. *)
Context {handler : Type}.
Variable size_bits : Z.
(** [#TAG] *)
Variable TAG : list ascii.
Variable MAX_LENGTH : Z.
Variable LOG_INTERNAL_BUFFER : Z.

(** The three static variables of a tag. *)
Record log_state : Type := LogState {
  log_handler : ptr handler;
  log_enabled : bool;
  log_min_level : log_level_e
}.

(** Their initialisers. *)
Definition log_initial : log_state := LogState NULL true LOG_LEVEL_DEBUG.

Definition set_callback (st : log_state) (h : ptr handler) : log_state :=
  LogState h (log_enabled st) (log_min_level st).

Definition log_enable (st : log_state) : log_state :=
  LogState (log_handler st) true (log_min_level st).

Definition log_disable (st : log_state) : log_state :=
  LogState (log_handler st) false (log_min_level st).

Definition log_is_enabled (st : log_state) : bool := log_enabled st.

Definition set_level_filter (st : log_state) (min_level : log_level_e)
    : log_state :=
  LogState (log_handler st) (log_enabled st) min_level.

Definition get_level_filter (st : log_state) : log_level_e :=
  log_min_level st.

Definition level_str (level : log_level_e) : list ascii :=
  match level with
  | LOG_LEVEL_DEBUG => ["D"%char]
  | LOG_LEVEL_INFO => ["I"%char]
  | LOG_LEVEL_WARNING => ["W"%char]
  | LOG_LEVEL_ERROR => ["E"%char]
  | _ => ["?"%char]
  end.

(** The expansion of ["[%s] (%s): "]. *)
Definition log_prefix (level : log_level_e) (tag_str : list ascii)
    : list ascii :=
  ["["%char] ++ level_str level ++ ["]"; " "; "("]%char ++ tag_str
  ++ [")"; ":"; " "]%char.

(** [tag_str] is the string at the pointer, [fmt] the format pointer with
    the expansion of the format and its arguments. The result is the call
    of the handler, if one is made: the function called and the array it
    is given. A non-negative [int] is a [size_t] of the same value. *)
Definition log_write (st : log_state) (level : log_level_e)
    (tag_str : list ascii) (fmt : ptr format_result)
    : option (option (handler * list ascii)) :=
  (* Fast path: Check enable flags first *)
  if negb (log_enabled st)
     || bool_decide (level_value level < level_value (log_min_level st))
  then Some None
  else
    (* Early exit if callback not registered or format string is NULL *)
    match log_handler st, fmt with
    | Ref h, Ref f =>
        (* Clear buffer to prevent garbage data *)
        let buffer := replicate (Z.to_nat MAX_LENGTH) NUL in
        (* Build prefix: [LEVEL] (TAG): *)
        '(buffer, result) ←
          snprintf buffer 0 MAX_LENGTH (Formatted (log_prefix level tag_str));
        if decide (result < 0 ∨ MAX_LENGTH ≤ result) then Some None
        else
          let offset := result in
          (* Append user message with format arguments *)
          '(buffer, result) ←
            snprintf buffer offset (size_wrap size_bits (MAX_LENGTH - offset))
                     f;
          if decide (result < 0) then Some None
          else
            (* Handle truncation if message exceeds buffer *)
            let offset :=
              if decide (size_wrap size_bits (MAX_LENGTH - offset) ≤ result)
              then size_wrap size_bits (MAX_LENGTH - 3)
              else size_wrap size_bits (offset + result) in
            (* Append CRLF line ending *)
            buffer ←
              (if decide (offset < size_wrap size_bits (MAX_LENGTH - 2))
               then
                 b ← store buffer offset CR;
                 b ← store b (size_wrap size_bits (offset + 1)) LF;
                 store b (size_wrap size_bits (offset + 2)) NUL
               else Some buffer);
            (* Invoke user callback with formatted message *)
            Some (Some (h, buffer))
    | _, _ => Some None
    end.

(** The body shared by the four level functions, which differ in the
    level only. [temp_fmt] is the content of the local array on entry; a
    null [fmt] reaches [vsnprintf], which is undefined. *)
Definition log_at (level : log_level_e) (st : log_state)
    (fmt : ptr format_result) (temp_fmt : list ascii)
    : option (option (handler * list ascii)) :=
  if negb (log_enabled st)
     || bool_decide (level_value level < level_value (log_min_level st))
  then Some None
  else
    match fmt with
    | NULL => None
    | Ref f =>
        '(temp_fmt, len) ← snprintf temp_fmt 0 LOG_INTERNAL_BUFFER f;
        if decide (len > 0)
        then log_write st level TAG (Ref (Formatted (c_str temp_fmt)))
        else Some None
    end.

Definition LOG_ERROR := log_at LOG_LEVEL_ERROR.
Definition LOG_WARNING := log_at LOG_LEVEL_WARNING.
Definition LOG_INFO := log_at LOG_LEVEL_INFO.
Definition LOG_DEBUG := log_at LOG_LEVEL_DEBUG.

End Logger.

Arguments log_state : clear implicits.

(** * Properties *)

(** ** Arithmetic of indices *)

Lemma mod_once (x n : Z) :
  0 ≤ x < 2 * n →
  (x < n ∧ x `mod` n = x) ∨ (n ≤ x ∧ x `mod` n = x - n).
Proof.
  intros Hx. destruct (decide (x < n)) as [Hlt|Hge].
  - left. split; [done|]. apply Z.mod_small. lia.
  - right. split; [lia|].
    rewrite <-(Z.mod_small (x - n) n) by lia.
    replace x with (x - n + 1 * n) at 1 by lia. apply Z.mod_add. lia.
Qed.

Lemma size_wrap_small (size_bits z : Z) :
  0 ≤ z < 2 ^ size_bits → size_wrap size_bits z = z.
Proof. intros ?. unfold size_wrap. by apply Z.mod_small. Qed.

(** ** Arrays *)

Lemma load_Some {A} (a : list A) (i : Z) (x : A) :
  load a i = Some x ↔ 0 ≤ i ∧ a !! Z.to_nat i = Some x.
Proof. unfold load. destruct (decide (0 ≤ i)); intuition (done || lia). Qed.

Lemma load_lt {A} (a : list A) (i : Z) :
  0 ≤ i < Z.of_nat (length a) → ∃ x, load a i = Some x.
Proof.
  intros Hi. destruct (lookup_lt_is_Some_2 a (Z.to_nat i)) as [x Hx]; [lia|].
  exists x. apply load_Some. split; [lia|done].
Qed.

Lemma store_lt {A} (a : list A) (i : Z) (x : A) :
  0 ≤ i < Z.of_nat (length a) → store a i x = Some (<[Z.to_nat i := x]> a).
Proof. intros ?. unfold store. by rewrite decide_True. Qed.

Lemma lookup_snoc_cases {A} (l : list A) (x : A) (k : nat) :
  (l ++ [x]) !! k =
    if decide (k < length l)%nat then l !! k
    else if decide (k = length l) then Some x else None.
Proof.
  repeat case_decide.
  - by apply lookup_app_l.
  - subst k. by rewrite list_lookup_middle.
  - apply lookup_ge_None. rewrite length_app. simpl. lia.
Qed.

Lemma store_length {A} (a b : list A) (i : Z) (x : A) :
  store a i x = Some b → length b = length a.
Proof.
  unfold store. case_decide; [|done]. intros [= <-]. apply length_insert.
Qed.

(** ** The engine *)

Section QueueProofs.
Context {TYPE : Type}.
Variable size_bits : Z.
Variable SIZE : Z.
(** [SIZE] is the length of an array, so it is positive and a
    [size_t]. *)
Hypothesis SIZE_pos : 0 < SIZE.
Hypothesis SIZE_fits : SIZE < 2 ^ size_bits.

Implicit Types (q : queue_t TYPE) (v x d : TYPE).

Local Abbreviation wf := (wf SIZE).
Local Abbreviation queue_typed := (queue_typed SIZE).
Local Abbreviation queue_push := (queue_push size_bits SIZE).
Local Abbreviation queue_push_no_overwrite :=
  (queue_push_no_overwrite size_bits SIZE).
Local Abbreviation queue_pull := (queue_pull size_bits SIZE).
Local Abbreviation queue_pull_multiple := (queue_pull_multiple size_bits SIZE).
Local Abbreviation pull_multiple_loop := (pull_multiple_loop size_bits SIZE).
Local Abbreviation push_each := (push_each size_bits SIZE).
Local Abbreviation pull_each := (pull_each size_bits SIZE).
Local Abbreviation size_wrap := (size_wrap size_bits).

(** Reduce every [_ `mod` SIZE] whose argument is below [2 * SIZE]. *)
Ltac mod_cases :=
  repeat match goal with
  | |- context [?x `mod` SIZE] =>
      let H := fresh "Hmod" in
      destruct (mod_once x SIZE) as [[? H]|[? H]];
      [lia|rewrite ?H in *; clear H..]
  | H : context [?x `mod` SIZE] |- _ =>
      let H' := fresh "Hmod" in
      destruct (mod_once x SIZE) as [[? H']|[? H']];
      [lia|rewrite ?H' in *; clear H'..]
  end.

Ltac live_cases :=
  mod_cases; first [ done | lia | f_equal; lia | exfalso; lia ].

Lemma wrap_slot (i : Z) : 0 ≤ i ≤ SIZE → size_wrap i = i.
Proof. intros ?. apply size_wrap_small. lia. Qed.

Lemma wf_write_index q : wf q → 0 ≤ write_index q < SIZE.
Proof.
  clear SIZE_fits.
  intros (_ & ? & ? & ->). apply Z.mod_pos_bound. lia.
Qed.

Lemma length_live q : wf q → length (live q) = Z.to_nat (count q).
Proof.
  clear SIZE_pos SIZE_fits.
  intros (Hty & ? & ? & _). unfold live.
  rewrite length_take, length_rotate, Hty. lia.
Qed.

(** The [k]-th live element is the slot [k] places after [read_index],
    circularly. *)
Lemma live_lookup q (k : nat) :
  wf q →
  live q !! k =
    if decide (Z.of_nat k < count q)
    then buffer q !! Z.to_nat ((read_index q + Z.of_nat k) `mod` SIZE)
    else None.
Proof.
  clear SIZE_fits.
  intros (Hty & ? & ? & _). unfold live. case_decide.
  - rewrite lookup_take_lt by lia.
    rewrite lookup_rotate_r by (rewrite Hty; lia).
    unfold rotate_nat_add. rewrite Hty, !Z2Nat.id by lia. done.
  - rewrite lookup_take_ge by lia. done.
Qed.

(** *** Single push and pull against the abstraction *)

Lemma queue_initialize_wf q :
  queue_typed q →
  ∃ q', queue_initialize (Ref q) = (QUEUE_OK, Ref q') ∧
        wf q' ∧ count q' = 0 ∧ live q' = [].
Proof.
  clear SIZE_fits. intros Hty. eexists. split; [reflexivity|].
  split; [|done]. repeat split; simpl; try done; lia.
Qed.

Lemma queue_push_live q v :
  wf q →
  ∃ q', queue_push (Ref q) v = Some (QUEUE_OK, Ref q') ∧ wf q' ∧
        live q' =
          (if decide (SIZE ≤ count q) then drop 1 (live q) else live q)
          ++ [v].
Proof.
  intros Hwf. pose proof (wf_write_index q Hwf) as Hw.
  pose proof (length_live q Hwf) as Hlen.
  pose proof (λ k, live_lookup q k Hwf) as Hlook.
  destruct Hwf as (Hty & Hr & Hc & Hweq).
  destruct q as [buf w r c]; unfold queue_typed in Hty; simpl in *.
  unfold queue_push; simpl.
  destruct (decide (SIZE ≤ c)) as [Hfull|Hroom]; simpl;
    rewrite store_lt by lia; simpl; rewrite !wrap_slot by lia;
    (eexists; split; [reflexivity|]);
    match goal with |- wf ?q ∧ _ => assert (wf q) as Hwf' end.
  1,3: repeat split; unfold queue_typed; simpl;
       rewrite ?length_insert; try done; subst w; mod_cases; lia.
  all: split; [done|]; apply list_eq; intros k;
       rewrite (live_lookup _ k Hwf'); simpl; clear Hwf';
       rewrite lookup_snoc_cases, ?lookup_drop, !Hlook, ?length_drop, Hlen,
         list_lookup_insert, Hty;
       subst w; repeat case_decide; live_cases.
Qed.

Lemma queue_push_no_overwrite_room q v :
  ¬ SIZE ≤ count q →
  queue_push_no_overwrite (Ref q) v = queue_push (Ref q) v.
Proof.
  clear SIZE_pos SIZE_fits.
  intros ?. unfold queue_push_no_overwrite, queue_push.
  rewrite !decide_False by done. done.
Qed.

(** The state change shared by [queue_pull] and by one turn of the loop
    of [queue_pull_multiple]. *)
Lemma advance_live q :
  wf q → count q ≠ 0 →
  ∃ x, load (buffer q) (read_index q) = Some x ∧
       let q' := Queue (buffer q) (write_index q)
                       (size_wrap (read_index q + 1) `mod` SIZE)
                       (size_wrap (count q - 1)) in
       wf q' ∧ live q = x :: live q'.
Proof.
  intros Hwf Hne.
  pose proof (λ k, live_lookup q k Hwf) as Hlook.
  destruct Hwf as (Hty & Hr & Hc & Hweq).
  destruct q as [buf w r c]; unfold queue_typed in Hty; simpl in *.
  destruct (load_lt buf r) as [x Hx]; [lia|].
  exists x. split; [done|]. rewrite !wrap_slot by lia.
  match goal with |- wf ?q ∧ _ => assert (wf q) as Hwf' end.
  { repeat split; unfold queue_typed; simpl; try done;
      subst w; mod_cases; lia. }
  split; [done|]. apply list_eq; intros k. rewrite Hlook.
  apply load_Some in Hx as [_ Hx].
  destruct k as [|k]; simpl.
  - rewrite decide_True by lia. rewrite <-Hx. live_cases.
  - rewrite (live_lookup _ k Hwf'); simpl.
    repeat case_decide; live_cases.
Qed.

Lemma queue_pull_live q d0 :
  wf q → count q ≠ 0 →
  ∃ x q', queue_pull (Ref q) (Ref d0) = Some (QUEUE_OK, Ref q', Ref x) ∧
          wf q' ∧ live q = x :: live q'.
Proof.
  intros Hwf Hne. destruct (advance_live q Hwf Hne) as (x & Hx & Hwf' & Hl).
  exists x. eexists. split; [|done].
  unfold queue_pull. rewrite decide_False by done. by rewrite Hx.
Qed.

Lemma queue_pull_empty q d0 :
  count q = 0 →
  queue_pull (Ref q) (Ref d0) = Some (QUEUE_ERROR_EMPTY, Ref q, Ref d0).
Proof.
  clear SIZE_pos SIZE_fits. intros ?. unfold queue_pull.
  by rewrite decide_True.
Qed.

Lemma live_nil q : wf q → (live q = [] ↔ count q = 0).
Proof.
  clear SIZE_pos SIZE_fits.
  intros Hwf. pose proof (length_live q Hwf) as Hlen.
  destruct Hwf as (_ & _ & ? & _). split.
  - intros Hnil. rewrite Hnil in Hlen. simpl in Hlen. lia.
  - intros Hc. apply length_zero_iff_nil. lia.
Qed.

(** *** Runs of pushes and pulls *)

Lemma push_each_cons (self : ptr (queue_t TYPE)) v (vs : list TYPE) :
  push_each self (v :: vs) =
    '(st, self') ← queue_push self v;
    '(sts, self'') ← push_each self' vs;
    Some (st :: sts, self'').
Proof. reflexivity. Qed.

Lemma pull_each_S (self : ptr (queue_t TYPE)) (n : nat) (p : ptr TYPE) :
  pull_each self (S n) p =
    '(st, self', p') ← queue_pull self p;
    '(rs, self'') ← pull_each self' n p';
    Some ((st, p') :: rs, self'').
Proof. reflexivity. Qed.

(** After any run of pushes the queue holds the last [SIZE] of the
    elements it held and was given. *)
Lemma push_each_live (vs : list TYPE) q :
  wf q →
  ∃ q', push_each (Ref q) vs
          = Some (replicate (length vs) QUEUE_OK, Ref q') ∧
        wf q' ∧
        live q' = drop (length (live q ++ vs) - Z.to_nat SIZE)
                       (live q ++ vs).
Proof.
  revert q. induction vs as [|v vs IH]; intros q Hwf.
  - exists q. split; [done|]. split; [done|].
    rewrite app_nil_r, length_live by done.
    destruct Hwf as (_ & _ & ? & _).
    replace (Z.to_nat (count q) - Z.to_nat SIZE)%nat with 0%nat by lia.
    done.
  - destruct (queue_push_live q v Hwf) as (q1 & Hpush & Hwf1 & Hl1).
    destruct (IH q1 Hwf1) as (q' & Hrun & Hwf' & Hl').
    exists q'. split; [|split; [done|]].
    { rewrite push_each_cons, Hpush. simpl. by rewrite Hrun. }
    rewrite Hl', Hl1. pose proof (length_live q Hwf) as Hlen.
    destruct Hwf as (_ & _ & ? & _). case_decide.
    + destruct (live q) as [|a l]; simpl in *; [lia|].
      rewrite drop_0, <-!app_assoc, !length_app. simpl.
      replace (S (length l + S (length vs)) - Z.to_nat SIZE)%nat
        with (S (length l + S (length vs) - Z.to_nat SIZE)) by lia.
      done.
    + by rewrite <-!app_assoc.
Qed.

Lemma pull_each_live (n : nat) q d :
  wf q → (n ≤ length (live q))%nat →
  ∃ q', pull_each (Ref q) n (Ref d)
          = Some ((λ x, (QUEUE_OK, Ref x)) <$> take n (live q), Ref q') ∧
        wf q' ∧ live q' = drop n (live q).
Proof.
  revert q d. induction n as [|n IH]; intros q d Hwf Hn.
  - exists q. by rewrite take_0, drop_0.
  - assert (count q ≠ 0) as Hne.
    { intros Hc. apply (live_nil q Hwf) in Hc. rewrite Hc in Hn.
      simpl in Hn. lia. }
    destruct (queue_pull_live q d Hwf Hne) as (x & q1 & Hpull & Hwf1 & Hl).
    rewrite Hl in Hn |- *. simpl in Hn.
    destruct (IH q1 x Hwf1) as (q' & Hrun & Hwf' & Hl'); [lia|].
    exists q'. split; [|done].
    rewrite pull_each_S, Hpull. simpl. by rewrite Hrun.
Qed.

(** *** FIFO order and the overwrite policy *)

(** C3. FIFO order: [k ≤ SIZE] values pushed into an empty buffer all
    go in with status OK, and the next [k] pulls all succeed and return
    the values in the order they were pushed. *)
Theorem fifo_order q (ps : list TYPE) d :
  wf q → count q = 0 → Z.of_nat (length ps) ≤ SIZE →
  ∃ q1 q2,
    push_each (Ref q) ps = Some (replicate (length ps) QUEUE_OK, Ref q1) ∧
    pull_each (Ref q1) (length ps) (Ref d)
      = Some ((λ p, (QUEUE_OK, Ref p)) <$> ps, Ref q2).
Proof.
  intros Hwf Hc Hk.
  destruct (push_each_live ps q Hwf) as (q1 & Hpush & Hwf1 & Hl1).
  apply (live_nil q Hwf) in Hc. rewrite Hc in Hl1. simpl in Hl1.
  replace (length ps - Z.to_nat SIZE)%nat with 0%nat in Hl1 by lia.
  rewrite drop_0 in Hl1.
  destruct (pull_each_live (length ps) q1 d Hwf1) as (q2 & Hpull & _ & _).
  { by rewrite Hl1. }
  exists q1, q2. split; [done|].
  by rewrite Hpull, Hl1, firstn_all.
Qed.

(** C2. Overwrite policy: after [SIZE + 1] values are pushed into an
    empty buffer of capacity [SIZE], the next [SIZE] pulls succeed and
    return the second to the last value in order, and the pull after
    them finds the buffer empty: the first value is gone. *)
Theorem overwrite_policy q (vs : list TYPE) d :
  wf q → count q = 0 → length vs = S (Z.to_nat SIZE) →
  ∃ q1 q2,
    push_each (Ref q) vs = Some (replicate (length vs) QUEUE_OK, Ref q1) ∧
    live q1 = drop 1 vs ∧
    pull_each (Ref q1) (Z.to_nat SIZE) (Ref d)
      = Some ((λ p, (QUEUE_OK, Ref p)) <$> drop 1 vs, Ref q2) ∧
    ∀ d', queue_pull (Ref q2) (Ref d')
            = Some (QUEUE_ERROR_EMPTY, Ref q2, Ref d').
Proof.
  intros Hwf Hc Hlen.
  destruct (push_each_live vs q Hwf) as (q1 & Hpush & Hwf1 & Hl1).
  apply (live_nil q Hwf) in Hc. rewrite Hc in Hl1. simpl in Hl1.
  replace (length vs - Z.to_nat SIZE)%nat with 1%nat in Hl1 by lia.
  destruct (pull_each_live (Z.to_nat SIZE) q1 d Hwf1)
    as (q2 & Hpull & Hwf2 & Hl2).
  { rewrite Hl1, length_drop. lia. }
  exists q1, q2. split; [done|]. split; [done|]. split.
  - rewrite Hpull, Hl1, take_ge; [done|]. rewrite length_drop. lia.
  - intros d'. apply queue_pull_empty. apply (live_nil q2 Hwf2).
    rewrite Hl2, Hl1. apply drop_ge. rewrite length_drop. lia.
Qed.

(** C4. No-overwrite rejection: on a full buffer [queue_push_no_overwrite]
    returns FULL and leaves the whole struct as it was, so that the next
    pull returns the element in the slot [read_index], the oldest one. *)
Theorem push_no_overwrite_full q v x d :
  count q = SIZE → load (buffer q) (read_index q) = Some x →
  ∃ self',
    queue_push_no_overwrite (Ref q) v = Some (QUEUE_ERROR_FULL, self') ∧
    self' = Ref q ∧
    ∃ q', queue_pull self' (Ref d) = Some (QUEUE_OK, Ref q', Ref x).
Proof.
  clear SIZE_fits.
  intros Hc Hx. exists (Ref q). split; [|split; [done|]].
  - unfold queue_push_no_overwrite. rewrite decide_True by lia. done.
  - unfold queue_pull. rewrite decide_False by lia. rewrite Hx. simpl.
    by eexists.
Qed.

(** *** Bulk pull *)

Lemma pull_multiple_loop_live (n : nat) (i : Z) q (out : list TYPE) :
  wf q → (n ≤ length (live q))%nat →
  0 ≤ i → i + Z.of_nat n ≤ Z.of_nat (length out) →
  ∃ q', pull_multiple_loop n i q out
          = Some (q', take (Z.to_nat i) out ++ take n (live q)
                      ++ drop (Z.to_nat i + n) out) ∧
        wf q' ∧ live q' = drop n (live q).
Proof.
  revert i q out. induction n as [|n IH]; intros i q out Hwf Hn Hi Hout.
  - exists q. rewrite take_0, drop_0, Nat.add_0_r. simpl.
    by rewrite take_drop.
  - assert (count q ≠ 0) as Hne.
    { intros Hc. apply (live_nil q Hwf) in Hc. rewrite Hc in Hn.
      simpl in Hn. lia. }
    destruct (advance_live q Hwf Hne) as (x & Hx & Hwf1 & Hl).
    rewrite Hl in Hn |- *. simpl in Hn.
    edestruct (IH (i + 1) _ (<[Z.to_nat i := x]> out) Hwf1)
      as (q' & Hrun & Hwf' & Hl'); [lia|lia|rewrite length_insert; lia|].
    exists q'. split; [|done].
    simpl. rewrite Hx. simpl. rewrite store_lt by lia. simpl.
    rewrite Hrun. do 2 f_equal.
    replace (Z.to_nat (i + 1)) with (S (Z.to_nat i)) by lia.
    rewrite (take_S_r _ _ x) by (apply list_lookup_insert_eq; lia).
    rewrite take_insert_ge by lia. rewrite drop_insert_lt by lia.
    replace (Z.to_nat i + S n)%nat with (S (Z.to_nat i) + n)%nat by lia.
    by rewrite <-app_assoc.
Qed.

(** [queue_pull_multiple] on a non-empty buffer: the first
    [min length count] live elements go to the front of [data_out], in
    order, and leave the queue. *)
Lemma queue_pull_multiple_live q (out : list TYPE) (len : Z)
    (read_count : ptr Z) :
  wf q → count q ≠ 0 → len ≠ 0 →
  len `min` count q ≤ Z.of_nat (length out) →
  let n := Z.to_nat (len `min` count q) in
  ∃ q', queue_pull_multiple (Ref q) (Ref out) len read_count
          = Some (QUEUE_OK, Ref q', Ref (take n (live q) ++ drop n out),
                  match read_count with
                  | NULL => NULL
                  | Ref _ => Ref (len `min` count q)
                  end) ∧
        wf q' ∧ live q' = drop n (live q).
Proof.
  intros Hwf Hne Hlen Hout n. pose proof (length_live q Hwf) as Hl.
  destruct (pull_multiple_loop_live n 0 q out Hwf) as (q' & Hrun & Hq');
    [lia..|].
  exists q'. split; [|done]. unfold queue_pull_multiple.
  rewrite !decide_False by done.
  assert ((if decide (len > count q) then count q else len)
          = len `min` count q) as -> by (case_decide; lia).
  fold n. rewrite Hrun. done.
Qed.

Lemma queue_pull_multiple_zero_length q (out : list TYPE)
    (read_count : ptr Z) :
  queue_pull_multiple (Ref q) (Ref out) 0 read_count
    = Some (QUEUE_ERROR_NULL_POINTER, Ref q, Ref out, read_count).
Proof. reflexivity. Qed.

(** Second half of C1: on an empty buffer a request for one or more
    elements fails with EMPTY and reports zero elements read. *)
Lemma queue_pull_multiple_empty q (out : list TYPE) (len rc : Z) :
  count q = 0 → 0 < len →
  queue_pull_multiple (Ref q) (Ref out) len (Ref rc)
    = Some (QUEUE_ERROR_EMPTY, Ref q, Ref out, Ref 0).
Proof.
  clear SIZE_pos SIZE_fits.
  intros Hc Hlen. unfold queue_pull_multiple.
  rewrite decide_False by lia. by rewrite decide_True.
Qed.

(** C6. Bulk pull: when more elements are requested than the non-empty
    buffer holds, the call returns OK, reports [count] elements read,
    hands out all live elements in FIFO order and leaves the buffer
    empty. *)
Theorem pull_multiple_drains q (out : list TYPE) (max_count rc : Z) :
  wf q → 0 < count q → count q < max_count →
  count q ≤ Z.of_nat (length out) →
  ∃ q', queue_pull_multiple (Ref q) (Ref out) max_count (Ref rc)
          = Some (QUEUE_OK, Ref q',
                  Ref (live q ++ drop (Z.to_nat (count q)) out),
                  Ref (count q)) ∧
        count q' = 0 ∧ queue_is_empty (Ref q') = true.
Proof.
  intros Hwf Hc Hmax Hout. pose proof (length_live q Hwf) as Hl.
  destruct (queue_pull_multiple_live q out max_count (Ref rc) Hwf)
    as (q' & Hrun & Hwf' & Hl'); [lia..|].
  replace (max_count `min` count q) with (count q) in * by lia.
  rewrite take_ge in Hrun by lia. rewrite drop_ge in Hl' by lia.
  apply (live_nil q' Hwf') in Hl'.
  exists q'. split; [done|]. split; [done|].
  simpl. by apply bool_decide_eq_true.
Qed.

(** *** Peek and the status queries *)

(** C8. Peek: on an empty buffer [queue_peek] fails with EMPTY; on a
    non-empty one it copies the slot at [read_index] to the output and
    succeeds; in both cases buffer, indices and count stay as they
    were. *)
Theorem peek_frame q d :
  (count q = 0 →
   queue_peek (Ref q) (Ref d) = Some (QUEUE_ERROR_EMPTY, Ref q, Ref d)) ∧
  (∀ x, 0 < count q → load (buffer q) (read_index q) = Some x →
        queue_peek (Ref q) (Ref d) = Some (QUEUE_OK, Ref q, Ref x)).
Proof.
  clear SIZE_pos SIZE_fits.
  unfold queue_peek. split.
  - intros Hc. by rewrite decide_True.
  - intros x Hc Hx. rewrite decide_False by lia. by rewrite Hx.
Qed.

(** In a well-formed non-empty buffer the slot at [read_index] is the
    oldest live element. *)
Lemma load_read_index q :
  wf q → count q ≠ 0 →
  ∃ x, load (buffer q) (read_index q) = Some x ∧ head (live q) = Some x.
Proof.
  intros Hwf Hne. destruct (advance_live q Hwf Hne) as (x & Hx & _ & Hl).
  exists x. by rewrite Hl.
Qed.

(** C7. Status queries: with [count] in its range [0 .. SIZE],
    [queue_is_empty] holds exactly when [count] is [0], [queue_is_full]
    exactly when [count] is [SIZE], and [queue_available_space] is
    [SIZE - count]; for a null handle the queue is reported empty with no
    space. *)
Theorem status_queries q :
  0 ≤ count q ≤ SIZE →
  (queue_is_empty (Ref q) = true ↔ count q = 0) ∧
  (queue_is_full SIZE (Ref q) = true ↔ count q = SIZE) ∧
  queue_available_space size_bits SIZE (Ref q) = SIZE - count q ∧
  queue_is_empty (@NULL (queue_t TYPE)) = true ∧
  queue_available_space size_bits SIZE (@NULL (queue_t TYPE)) = 0.
Proof.
  clear SIZE_pos.
  intros Hc. simpl. rewrite !bool_decide_eq_true.
  rewrite wrap_slot by lia. repeat split; try done; lia.
Qed.

(** *** The invariant along any run *)

Lemma wf_reset q : queue_typed q → wf (Queue (buffer q) 0 0 0).
Proof.
  clear SIZE_fits.
  intros Hty. repeat split; simpl; try done; lia.
Qed.

Lemma exec_wf (o : op TYPE) q :
  wf q → op_ok o → ∃ q', exec size_bits SIZE o (Ref q) = Some (Ref q') ∧ wf q'.
Proof.
  intros Hwf Hok. destruct o as [|v|v|p|out len rc|p|]; unfold exec.
  - eexists. split; [done|]. apply wf_reset, Hwf.
  - destruct (queue_push_live q v Hwf) as (q' & -> & Hwf' & _). eauto.
  - destruct (decide (SIZE ≤ count q)) as [Hfull|Hroom].
    + unfold queue_push_no_overwrite. rewrite decide_True by done. eauto.
    + rewrite queue_push_no_overwrite_room by done.
      destruct (queue_push_live q v Hwf) as (q' & -> & Hwf' & _). eauto.
  - destruct p as [|d]; [eauto|].
    destruct (decide (count q = 0)) as [Hc|Hc].
    + rewrite queue_pull_empty by done. eauto.
    + destruct (queue_pull_live q d Hwf Hc) as (x & q' & -> & Hwf' & _).
      eauto.
  - destruct out as [|out]; [eauto|].
    destruct (decide (len = 0)) as [->|Hlen]; [eauto|].
    destruct (decide (count q = 0)) as [Hc|Hc].
    + unfold queue_pull_multiple. rewrite decide_False by done.
      rewrite decide_True by done. eauto.
    + simpl in Hok.
      destruct (queue_pull_multiple_live q out len rc Hwf Hc Hlen)
        as (q' & -> & Hwf' & _); [lia|eauto].
  - destruct p as [|d]; [eauto|]. unfold queue_peek.
    destruct (decide (count q = 0)) as [Hc|Hc]; [eauto|].
    destruct (load_read_index q Hwf Hc) as (x & -> & _). eauto.
  - eexists. split; [done|]. apply wf_reset, Hwf.
Qed.

Lemma run_wf (os : list (op TYPE)) q :
  wf q → Forall op_ok os →
  ∃ q', run size_bits SIZE os (Ref q) = Some (Ref q') ∧ wf q'.
Proof.
  intros Hwf Hok. revert q Hwf.
  induction Hok as [|o os Ho _ IH]; intros q Hwf; [by exists q|].
  destruct (exec_wf o q Hwf Ho) as (q1 & Hexec & Hwf1).
  destruct (IH q1 Hwf1) as (q' & Hrun & Hwf').
  exists q'. split; [|done]. cbn [run]. by rewrite Hexec.
Qed.

(** C5. Capacity bound: from an initialised buffer, every finite run of
    initialize, push, push_no_overwrite, pull, pull_multiple, peek and
    clear runs to its end and leaves [0 ≤ count ≤ SIZE] with both indices
    in [[0, SIZE)]. *)
Theorem capacity_bound (q0 : queue_t TYPE) (os : list (op TYPE)) :
  queue_typed q0 → Forall op_ok os →
  ∃ q, run size_bits SIZE os (queue_initialize (Ref q0)).2 = Some (Ref q) ∧
       0 ≤ count q ≤ SIZE ∧
       0 ≤ read_index q < SIZE ∧
       0 ≤ write_index q < SIZE.
Proof.
  intros Hty Hok.
  destruct (run_wf os (Queue (buffer q0) 0 0 0)) as (q & Hrun & Hwf);
    [by apply wf_reset|done|].
  exists q. split; [done|]. pose proof (wf_write_index q Hwf).
  destruct Hwf as (_ & ? & ? & _). done.
Qed.

End QueueProofs.

(** ** <string.h> facts *)

Lemma zero_fill_spec (dest : list ascii) (n : nat) :
  (n ≤ length dest)%nat →
  zero_fill dest n = Some (replicate n NUL ++ drop n dest).
Proof.
  revert dest. induction n as [|n IH]; intros dest Hn; [done|].
  destruct dest as [|c dest]; simpl in *; [lia|].
  rewrite IH by lia. done.
Qed.

(** Copying from an array that holds the string [s]: the first [n]
    characters of [s], then null characters up to [n] in all. *)
Lemma strncpy_spec (dest s rest : list ascii) (n : nat) :
  Forall (λ c, c ≠ NUL) s → (n ≤ length dest)%nat →
  strncpy dest (s ++ NUL :: rest) n
    = Some (take n s ++ replicate (n - length s) NUL ++ drop n dest).
Proof.
  intros Hs. revert dest n.
  induction Hs as [|c s Hc Hs IH]; intros dest n Hn.
  - destruct n as [|n]; [done|].
    destruct dest as [|c' dest]; simpl in *; [lia|].
    rewrite zero_fill_spec by lia. done.
  - destruct n as [|n]; [done|].
    destruct dest as [|c' dest]; simpl in *; [lia|].
    rewrite decide_False by done. rewrite IH by lia. done.
Qed.

Lemma c_str_spec (s rest : list ascii) :
  Forall (λ c, c ≠ NUL) s → c_str (s ++ NUL :: rest) = s.
Proof.
  induction 1 as [|c s Hc Hs IH]; simpl; [done|].
  rewrite decide_False by done. by rewrite IH.
Qed.

Lemma store_app_head {A} (a b : list A) (c x : A) :
  store (a ++ c :: b) (Z.of_nat (length a)) x = Some (a ++ x :: b).
Proof.
  rewrite store_lt by (rewrite length_app; simpl; lia).
  rewrite Nat2Z.id. f_equal.
  rewrite insert_app_r_alt by lia. by rewrite Nat.sub_diag.
Qed.

Lemma replicate_app_cons {A} (k : nat) (x : A) (l : list A) :
  replicate k x ++ x :: l = x :: replicate k x ++ l.
Proof. induction k as [|k IH]; simpl; [done|]. by rewrite IH. Qed.

(** ** The string adapter *)

Section StringProofs.
Variable size_bits : Z.
Variable STRING_SIZE : Z.
Variable QUEUE_SIZE : Z.
Hypothesis QUEUE_SIZE_pos : 0 < QUEUE_SIZE.
Hypothesis QUEUE_SIZE_fits : QUEUE_SIZE < 2 ^ size_bits.
(** [STRING_SIZE] is the length of [char data[STRING_SIZE]]. *)
Hypothesis STRING_SIZE_pos : 0 < STRING_SIZE.
Hypothesis STRING_SIZE_fits : STRING_SIZE < 2 ^ size_bits.

Implicit Types (q : queue_t str_t) (s rest out : list ascii).

Local Abbreviation wf := (wf QUEUE_SIZE).
Local Abbreviation push_string :=
  (queue_push_with_string_support size_bits STRING_SIZE QUEUE_SIZE).
Local Abbreviation pull_string :=
  (queue_pull_with_string_support size_bits QUEUE_SIZE).
Local Abbreviation pull_each := (pull_each size_bits QUEUE_SIZE).

(** What [queue_push_with_string_support] stores for the text [s]: its
    first [STRING_SIZE - 1] characters, null padding, and the null
    character at index [STRING_SIZE - 1]. *)
Lemma push_string_live q s rest (item : str_t) :
  wf q → length (data item) = Z.to_nat STRING_SIZE →
  Forall (λ c, c ≠ NUL) s →
  let n := Z.to_nat (STRING_SIZE - 1) in
  ∃ q', push_string (Ref q) (Ref (s ++ NUL :: rest)) item = Some (Ref q') ∧
        wf q' ∧
        live q' =
          (if decide (QUEUE_SIZE ≤ count q) then drop 1 (live q)
           else live q)
          ++ [Str (take n s ++ replicate (n - length s) NUL ++ [NUL])].
Proof.
  intros Hwf Hty Hs n. unfold queue_push_with_string_support.
  rewrite size_wrap_small by lia. fold n.
  rewrite strncpy_spec by (done || lia). cbn -[queue_push].
  destruct (drop n (data item)) as [|c tl] eqn:Hdrop.
  { apply (f_equal length) in Hdrop. rewrite length_drop in Hdrop.
    simpl in Hdrop. lia. }
  assert (tl = []) as ->.
  { apply (f_equal length) in Hdrop. rewrite length_drop in Hdrop.
    simpl in Hdrop. apply length_zero_iff_nil. lia. }
  rewrite app_assoc.
  replace (STRING_SIZE - 1)
    with (Z.of_nat (length (take n s ++ replicate (n - length s) NUL))).
  2:{ rewrite length_app, length_take, length_replicate. lia. }
  rewrite store_app_head. cbn -[queue_push]. rewrite <-app_assoc.
  destruct (queue_push_live size_bits QUEUE_SIZE QUEUE_SIZE_pos
              QUEUE_SIZE_fits q
              (Str (take n s ++ replicate (n - length s) NUL ++ [NUL])) Hwf)
    as (q' & -> & Hwf' & Hl).
  by exists q'.
Qed.

(** What [queue_pull_with_string_support] writes when the oldest element
    holds the string [s]. *)
Lemma pull_string_oldest q (e : str_t) s rest out (max_len : Z)
    (item : str_t) :
  0 < count q → load (buffer q) (read_index q) = Some e →
  data e = s ++ NUL :: rest → Forall (λ c, c ≠ NUL) s →
  0 < max_len < 2 ^ size_bits → max_len ≤ Z.of_nat (length out) →
  let m := Z.to_nat (max_len - 1) in
  ∃ q', pull_string (Ref q) (Ref out) max_len item
          = Some (1, Ref q',
                  Ref (take m s ++ replicate (m - length s) NUL
                       ++ NUL :: drop (Z.to_nat max_len) out)).
Proof.
  intros Hc He Hdata Hs Hmax Hout m.
  unfold queue_pull_with_string_support, queue_pull.
  destruct (decide (max_len = 0)); [lia|].
  destruct (decide (count q = 0)); [lia|]. rewrite He. simpl.
  rewrite !(size_wrap_small _ (max_len - 1)) by lia. fold m.
  rewrite Hdata, strncpy_spec by (done || lia). simpl.
  destruct (drop m out) as [|c tl] eqn:Hdrop.
  { apply (f_equal length) in Hdrop. rewrite length_drop in Hdrop.
    simpl in Hdrop. lia. }
  assert (tl = drop (Z.to_nat max_len) out) as ->.
  { replace (Z.to_nat max_len) with (m + 1)%nat by lia.
    rewrite <-drop_drop, Hdrop. done. }
  rewrite app_assoc.
  replace (max_len - 1)
    with (Z.of_nat (length (take m s ++ replicate (m - length s) NUL))).
  2:{ rewrite length_app, length_take, length_replicate. lia. }
  rewrite store_app_head. simpl. rewrite <-app_assoc. by eexists.
Qed.

(** C9. String truncation. First part: a text of more than
    [STRING_SIZE - 1] characters is pushed; once the older elements have
    been pulled, pulling it into an output array of capacity
    [max_len ≥ STRING_SIZE] gives its first [STRING_SIZE - 1] characters
    followed by a null character. Second part: pulling the oldest
    element, which holds the string [s], into an output array of capacity
    [max_len] no larger than the length of [s] gives the first
    [max_len - 1] characters of [s] followed by a null character. *)
Theorem string_truncation :
  (∀ q s rest (item0 item1 d : str_t) out (max_len : Z),
     wf q → length (data item0) = Z.to_nat STRING_SIZE →
     Forall (λ c, c ≠ NUL) s →
     STRING_SIZE - 1 < Z.of_nat (length s) →
     STRING_SIZE ≤ max_len < 2 ^ size_bits →
     max_len ≤ Z.of_nat (length out) →
     let n := Z.to_nat (STRING_SIZE - 1) in
     ∃ q1 older q2 q3 out',
       push_string (Ref q) (Ref (s ++ NUL :: rest)) item0 = Some (Ref q1) ∧
       pull_each (Ref q1) (Z.to_nat (count q1 - 1)) (Ref d)
         = Some (older, Ref q2) ∧
       pull_string (Ref q2) (Ref out) max_len item1
         = Some (1, Ref q3, Ref out') ∧
       out' = take n s ++ NUL :: replicate (Z.to_nat max_len - S n) NUL
              ++ drop (Z.to_nat max_len) out ∧
       c_str out' = take n s) ∧
  (∀ q (e : str_t) s rest (item1 : str_t) out (max_len : Z),
     0 < count q → load (buffer q) (read_index q) = Some e →
     data e = s ++ NUL :: rest → Forall (λ c, c ≠ NUL) s →
     0 < max_len ≤ Z.of_nat (length s) → max_len < 2 ^ size_bits →
     max_len ≤ Z.of_nat (length out) →
     let m := Z.to_nat (max_len - 1) in
     ∃ q' out',
       pull_string (Ref q) (Ref out) max_len item1
         = Some (1, Ref q', Ref out') ∧
       out' = take m s ++ NUL :: drop (Z.to_nat max_len) out ∧
       c_str out' = take m s).
Proof.
  split.
  - intros q s rest item0 item1 d out max_len Hwf Hty Hs Hlong Hmax Hout n.
    destruct (push_string_live q s rest item0 Hwf Hty Hs)
      as (q1 & Hpush & Hwf1 & Hl1). fold n in Hl1.
    replace (n - length s)%nat with 0%nat in Hl1 by lia. simpl in Hl1.
    set (item := Str (take n s ++ [NUL])) in *.
    set (l := if decide (QUEUE_SIZE ≤ count q) then drop 1 (live q)
              else live q) in *.
    pose proof (length_live QUEUE_SIZE q1 Hwf1) as Hc1.
    rewrite Hl1, length_app in Hc1. simpl in Hc1.
    destruct (pull_each_live size_bits QUEUE_SIZE QUEUE_SIZE_pos
                QUEUE_SIZE_fits (length l) q1 d Hwf1)
      as (q2 & Hpull & Hwf2 & Hl2).
    { rewrite Hl1, length_app. lia. }
    rewrite Hl1, drop_app_length in Hl2.
    assert (count q2 ≠ 0) as Hc2.
    { intros Hc. apply (live_nil QUEUE_SIZE q2 Hwf2) in Hc. by rewrite Hc in Hl2. }
    destruct (load_read_index size_bits QUEUE_SIZE QUEUE_SIZE_pos
                QUEUE_SIZE_fits q2 Hwf2 Hc2) as (e & He & Hhead).
    rewrite Hl2 in Hhead. injection Hhead as <-.
    destruct (pull_string_oldest q2 item (take n s) [] out max_len item1)
      as (q3 & Hout'); try done.
    { destruct Hwf2 as (_ & _ & ? & _). lia. }
    { by apply Forall_take. }
    { lia. }
    simpl in Hout'. rewrite take_take, length_take in Hout'.
    replace (Z.to_nat (max_len - 1) `min` n)%nat with n in Hout' by lia.
    replace (Z.to_nat (max_len - 1) - n `min` length s)%nat
      with (Z.to_nat max_len - S n)%nat in Hout' by lia.
    rewrite replicate_app_cons in Hout'.
    exists q1, ((λ x, (QUEUE_OK, Ref x)) <$> take (length l) (live q1)), q2, q3.
    eexists. split; [done|]. split.
    { replace (Z.to_nat (count q1 - 1)) with (length l) by lia. done. }
    split; [done|]. split; [done|].
    apply c_str_spec. by apply Forall_take.
  - intros q e s rest item1 out max_len Hc He Hdata Hs Hmax Hfit Hout m.
    destruct (pull_string_oldest q e s rest out max_len item1)
      as (q' & Hout'); try done; [lia|].
    fold m in Hout'.
    replace (m - length s)%nat with 0%nat in Hout' by lia.
    simpl in Hout'.
    exists q'. eexists. split; [done|]. split; [done|].
    apply c_str_spec. by apply Forall_take.
Qed.

(** C10. A null text or a null queue makes
    [queue_push_with_string_support] return at once: nothing is
    reported and the queue is left as it was. *)
Theorem push_string_null (queue : ptr (queue_t str_t))
    (str : ptr (list ascii)) (item : str_t) :
  push_string queue NULL item = Some queue ∧
  push_string NULL str item = Some NULL.
Proof. split; [by destruct queue|done]. Qed.

End StringProofs.

(** ** The engine in use *)

Section QueueUse.
Context {TYPE : Type}.
Variable size_bits : Z.
Variable SIZE : Z.
Hypothesis SIZE_pos : 0 < SIZE.
Hypothesis SIZE_fits : SIZE < 2 ^ size_bits.

Implicit Types (q : queue_t TYPE) (v x d : TYPE).

Local Abbreviation wf := (wf SIZE).
Local Abbreviation queue_typed := (queue_typed SIZE).
Local Abbreviation queue_push := (queue_push size_bits SIZE).
Local Abbreviation queue_push_no_overwrite :=
  (queue_push_no_overwrite size_bits SIZE).
Local Abbreviation queue_pull := (queue_pull size_bits SIZE).
Local Abbreviation queue_pull_multiple := (queue_pull_multiple size_bits SIZE).
Local Abbreviation push_each := (push_each size_bits SIZE).
Local Abbreviation pull_each := (pull_each size_bits SIZE).
Local Abbreviation push_no_overwrite_each :=
  (push_no_overwrite_each size_bits SIZE).
Local Abbreviation queue_available_space :=
  (queue_available_space size_bits SIZE).
Local Abbreviation queue_is_full := (queue_is_full SIZE).

(** X1. [queue_clear] turns any struct, whatever its indices and count,
    into a well-formed empty queue over the same buffer; it does what
    [queue_initialize] does, and clearing twice is clearing once. *)
Theorem clear_resets q :
  queue_typed q →
  ∃ q', queue_clear (Ref q) = Ref q' ∧
        buffer q' = buffer q ∧ wf q' ∧ live q' = [] ∧
        queue_count (Ref q') = 0 ∧
        queue_is_empty (Ref q') = true ∧
        queue_is_full (Ref q') = false ∧
        queue_available_space (Ref q') = SIZE ∧
        queue_peek_ptr (Ref q') = None ∧
        (∀ d, queue_pull (Ref q') (Ref d)
                = Some (QUEUE_ERROR_EMPTY, Ref q', Ref d)) ∧
        queue_clear (Ref q') = Ref q' ∧
        queue_initialize (Ref q) = (QUEUE_OK, Ref q').
Proof.
  intros Hty. exists (Queue (buffer q) 0 0 0).
  split; [done|]. split; [done|].
  split; [by apply wf_reset|]. split; [done|]. split; [done|].
  split; [done|]. split.
  { simpl. apply bool_decide_eq_false. lia. }
  split.
  { simpl. rewrite Z.sub_0_r. apply size_wrap_small. lia. }
  done.
Qed.

(** X2. A null handle or a null output pointer is reported as
    NULL_POINTER and nothing is written: the queue keeps its elements, the
    output array and [*read_count] keep their content. *)
Theorem null_pointer_errors q v (p : ptr TYPE) (out : ptr (list TYPE))
    (len : Z) (rc : ptr Z) :
  queue_initialize (@NULL (queue_t TYPE)) = (QUEUE_ERROR_NULL_POINTER, NULL) ∧
  queue_push NULL v = Some (QUEUE_ERROR_NULL_POINTER, NULL) ∧
  queue_push_no_overwrite NULL v = Some (QUEUE_ERROR_NULL_POINTER, NULL) ∧
  queue_pull NULL p = Some (QUEUE_ERROR_NULL_POINTER, NULL, p) ∧
  queue_pull (Ref q) NULL = Some (QUEUE_ERROR_NULL_POINTER, Ref q, NULL) ∧
  queue_peek NULL p = Some (QUEUE_ERROR_NULL_POINTER, NULL, p) ∧
  queue_peek (Ref q) NULL = Some (QUEUE_ERROR_NULL_POINTER, Ref q, NULL) ∧
  queue_pull_multiple NULL out len rc
    = Some (QUEUE_ERROR_NULL_POINTER, NULL, out, rc) ∧
  queue_pull_multiple (Ref q) NULL len rc
    = Some (QUEUE_ERROR_NULL_POINTER, Ref q, NULL, rc) ∧
  queue_peek_ptr (@NULL (queue_t TYPE)) = None ∧
  queue_count (@NULL (queue_t TYPE)) = 0 ∧
  queue_is_full (@NULL (queue_t TYPE)) = false ∧
  queue_clear (@NULL (queue_t TYPE)) = NULL.
Proof. clear SIZE_pos SIZE_fits. by destruct p, out. Qed.

(** X3. In a well-formed queue [queue_count] is the number of live
    elements, and with [queue_available_space] it adds up to the
    capacity. *)
Theorem count_is_live_length q :
  wf q →
  queue_count (Ref q) = Z.of_nat (length (live q)) ∧
  queue_count (Ref q) + queue_available_space (Ref q) = SIZE.
Proof.
  intros Hwf. rewrite (length_live SIZE q Hwf).
  destruct Hwf as (_ & _ & ? & _). simpl.
  rewrite (size_wrap_small size_bits (SIZE - count q)) by lia. lia.
Qed.

(** X4. [queue_push] on any well-formed queue succeeds, puts the value
    last, and keeps the newest [SIZE] elements: a full queue loses its
    oldest element, any other queue loses nothing. *)
Theorem push_keeps_newest q v :
  wf q →
  ∃ q', queue_push (Ref q) v = Some (QUEUE_OK, Ref q') ∧ wf q' ∧
        live q' = drop (length (live q) + 1 - Z.to_nat SIZE) (live q ++ [v]) ∧
        last (live q') = Some v ∧
        count q' = (count q + 1) `min` SIZE.
Proof.
  intros Hwf.
  destruct (queue_push_live size_bits SIZE SIZE_pos SIZE_fits q v Hwf)
    as (q' & Hpush & Hwf' & Hl).
  exists q'. split; [done|]. split; [done|].
  pose proof (length_live SIZE q Hwf) as Hlen.
  pose proof (length_live SIZE q' Hwf') as Hlen'.
  assert (0 ≤ count q ≤ SIZE) as Hc by (by destruct Hwf as (_ & _ & ? & _)).
  assert (0 ≤ count q' ≤ SIZE) as Hc' by (by destruct Hwf' as (_ & _ & ? & _)).
  split; [|split].
  - rewrite Hl. case_decide.
    + replace (length (live q) + 1 - Z.to_nat SIZE)%nat with 1%nat by lia.
      destruct (live q) as [|a l]; simpl in *; [lia|]. by rewrite drop_0.
    + replace (length (live q) + 1 - Z.to_nat SIZE)%nat with 0%nat by lia.
      done.
  - rewrite Hl. apply last_snoc.
  - rewrite Hl, length_app in Hlen'. simpl in Hlen'.
    case_decide; rewrite ?length_drop in Hlen'; lia.
Qed.

(** X5. [queue_push_no_overwrite] on a well-formed queue that is not full
    succeeds, appends the value and loses nothing; it leaves the struct
    that [queue_push] would leave. *)
Theorem push_no_overwrite_appends q v :
  wf q → count q < SIZE →
  ∃ q', queue_push_no_overwrite (Ref q) v = Some (QUEUE_OK, Ref q') ∧
        queue_push (Ref q) v = Some (QUEUE_OK, Ref q') ∧
        wf q' ∧ live q' = live q ++ [v] ∧ count q' = count q + 1.
Proof.
  intros Hwf Hroom.
  destruct (queue_push_live size_bits SIZE SIZE_pos SIZE_fits q v Hwf)
    as (q' & Hpush & Hwf' & Hl).
  rewrite decide_False in Hl by lia.
  exists q'. rewrite queue_push_no_overwrite_room by lia.
  split; [done|]. split; [done|]. split; [done|]. split; [done|].
  pose proof (length_live SIZE q Hwf) as Hlen.
  pose proof (length_live SIZE q' Hwf') as Hlen'.
  rewrite Hl, length_app in Hlen'. simpl in Hlen'.
  destruct Hwf as (_ & _ & ? & _), Hwf' as (_ & _ & ? & _). lia.
Qed.

(** X6. [queue_pull] on a well-formed non-empty queue succeeds, hands out
    the oldest element and leaves the others in order; the buffer itself
    and the write index are not touched. *)
Theorem pull_takes_oldest q d :
  wf q → 0 < count q →
  ∃ x q', queue_pull (Ref q) (Ref d) = Some (QUEUE_OK, Ref q', Ref x) ∧
          wf q' ∧ live q = x :: live q' ∧
          buffer q' = buffer q ∧ write_index q' = write_index q ∧
          count q' = count q - 1.
Proof.
  intros Hwf Hc.
  destruct (advance_live size_bits SIZE SIZE_pos SIZE_fits q Hwf)
    as (x & Hx & Hwf' & Hl); [lia|].
  exists x. eexists. split.
  { unfold queue_pull. rewrite decide_False by lia. by rewrite Hx. }
  split; [done|]. split; [done|]. split; [done|]. split; [done|].
  simpl. destruct Hwf as (_ & _ & ? & _). apply size_wrap_small. lia.
Qed.

(** X7. On a well-formed non-empty queue [queue_peek], [queue_peek_ptr]
    and the next [queue_pull] agree: all three give the oldest live
    element. On an empty queue [queue_peek_ptr] returns [NULL]. *)
Theorem peek_agrees_with_pull q d :
  wf q →
  (count q = 0 → queue_peek_ptr (Ref q) = None) ∧
  (0 < count q →
   ∃ x q' i,
     head (live q) = Some x ∧
     queue_peek (Ref q) (Ref d) = Some (QUEUE_OK, Ref q, Ref x) ∧
     queue_peek_ptr (Ref q) = Some i ∧ load (buffer q) i = Some x ∧
     queue_pull (Ref q) (Ref d) = Some (QUEUE_OK, Ref q', Ref x)).
Proof.
  intros Hwf. split.
  - intros Hc. simpl. by rewrite decide_True.
  - intros Hc.
    destruct (load_read_index size_bits SIZE SIZE_pos SIZE_fits q Hwf)
      as (x & Hx & Hhead); [lia|].
    exists x. eexists. exists (read_index q). split; [done|].
    unfold queue_peek, queue_peek_ptr, queue_pull.
    rewrite !decide_False by lia. rewrite Hx. done.
Qed.

(** X8. [queue_pull_multiple] on a well-formed non-empty queue with a
    request for [len > 0] elements moves [min len count] elements: they
    land at the front of the output array oldest first, the rest of the
    array keeps its content, the remaining elements stay queued in order,
    and [*read_count], when given, receives the number moved. *)
Theorem pull_multiple_partial q (out : list TYPE) (len : Z) (rc : ptr Z) :
  wf q → 0 < count q → 0 < len →
  len `min` count q ≤ Z.of_nat (length out) →
  let n := Z.to_nat (len `min` count q) in
  ∃ q' out',
    queue_pull_multiple (Ref q) (Ref out) len rc
      = Some (QUEUE_OK, Ref q', Ref out',
              match rc with NULL => NULL | Ref _ => Ref (Z.of_nat n) end) ∧
    take n out' = take n (live q) ∧ drop n out' = drop n out ∧
    length out' = length out ∧
    wf q' ∧ live q' = drop n (live q) ∧ count q' = count q - Z.of_nat n.
Proof.
  intros Hwf Hc Hlen Hout n.
  destruct (queue_pull_multiple_live size_bits SIZE SIZE_pos SIZE_fits
              q out len rc Hwf) as (q' & Hrun & Hwf' & Hl); [lia..|].
  fold n in Hrun, Hl.
  pose proof (length_live SIZE q Hwf) as Hlq.
  pose proof (length_live SIZE q' Hwf') as Hlq'.
  assert (length (take n (live q)) = n) as Htl
    by (rewrite length_take; lia).
  exists q'. eexists. split.
  { rewrite Hrun. do 2 f_equal. destruct rc; [done|]. f_equal. lia. }
  split; [by rewrite take_app_length'|].
  split; [by rewrite drop_app_length'|].
  split; [rewrite length_app, Htl, length_drop; lia|].
  split; [done|]. split; [done|].
  rewrite Hl, length_drop in Hlq'.
  destruct Hwf as (_ & _ & ? & _), Hwf' as (_ & _ & ? & _). lia.
Qed.

Lemma pull_multiple_loop_pull_each (n : nat) (i : Z) q (out : list TYPE) d
    q' out' :
  wf q → (n ≤ length (live q))%nat →
  pull_multiple_loop size_bits SIZE n i q out = Some (q', out') →
  ∃ rs, pull_each (Ref q) n (Ref d) = Some (rs, Ref q').
Proof.
  revert i q out d. induction n as [|n IH]; intros i q out d Hwf Hn Hrun.
  - injection Hrun as <- <-. by eexists.
  - assert (count q ≠ 0) as Hne.
    { intros Hc. apply (live_nil SIZE q Hwf) in Hc. rewrite Hc in Hn.
      simpl in Hn. lia. }
    destruct (advance_live size_bits SIZE SIZE_pos SIZE_fits q Hwf Hne)
      as (x & Hx & Hwf1 & Hl).
    rewrite Hl in Hn. simpl in Hn.
    cbn [pull_multiple_loop] in Hrun. rewrite Hx in Hrun. simpl in Hrun.
    destruct (store out i x) as [out1|]; [|done]. simpl in Hrun.
    destruct (IH _ _ _ x Hwf1 ltac:(lia) Hrun) as (rs & Hrs).
    exists ((QUEUE_OK, Ref x) :: rs).
    rewrite pull_each_S. unfold queue_pull.
    rewrite decide_False by done. rewrite Hx. simpl. by rewrite Hrs.
Qed.

(** X9. [queue_pull_multiple] leaves the struct that the same number of
    single [queue_pull] calls leave, and hands out the same values in the
    same order. *)
Theorem pull_multiple_as_pulls q (out : list TYPE) (len : Z) (rc : ptr Z) d :
  wf q → 0 < count q → 0 < len →
  len `min` count q ≤ Z.of_nat (length out) →
  let n := Z.to_nat (len `min` count q) in
  ∃ q' out' rc',
    queue_pull_multiple (Ref q) (Ref out) len rc
      = Some (QUEUE_OK, Ref q', Ref out', rc') ∧
    pull_each (Ref q) n (Ref d)
      = Some ((λ x, (QUEUE_OK, Ref x)) <$> take n out', Ref q').
Proof.
  intros Hwf Hc Hlen Hout n.
  pose proof (length_live SIZE q Hwf) as Hlq.
  destruct (pull_multiple_loop_live size_bits SIZE SIZE_pos SIZE_fits
              n 0 q out Hwf) as (q' & Hloop & _); [lia..|].
  destruct (pull_multiple_loop_pull_each n 0 q out d _ _ Hwf ltac:(lia) Hloop)
    as (rs & Hrs).
  destruct (pull_each_live size_bits SIZE SIZE_pos SIZE_fits n q d Hwf)
    as (q2 & Hpull & _); [lia|].
  rewrite Hrs in Hpull. injection Hpull as -> <-.
  exists q'. eexists. eexists. split.
  - unfold queue_pull_multiple. rewrite !decide_False by lia.
    assert ((if decide (len > count q) then count q else len)
            = len `min` count q) as -> by (case_decide; lia).
    fold n. rewrite Hloop. done.
  - rewrite Hrs. simpl. rewrite take_app_length'; [done|].
    rewrite length_take. lia.
Qed.

(** X10. FIFO order from any state: whatever a well-formed queue holds and
    however many values are pushed, every push succeeds, the queue then
    holds the newest [SIZE] of the old and new elements, and pulling them
    all returns them oldest first and empties the queue. *)
Theorem fifo_any_state q (vs : list TYPE) d :
  wf q →
  let kept := drop (length (live q ++ vs) - Z.to_nat SIZE) (live q ++ vs) in
  ∃ q1 q2,
    push_each (Ref q) vs = Some (replicate (length vs) QUEUE_OK, Ref q1) ∧
    live q1 = kept ∧
    pull_each (Ref q1) (length kept) (Ref d)
      = Some ((λ x, (QUEUE_OK, Ref x)) <$> kept, Ref q2) ∧
    count q2 = 0.
Proof.
  intros Hwf kept.
  destruct (push_each_live size_bits SIZE SIZE_pos SIZE_fits vs q Hwf)
    as (q1 & Hpush & Hwf1 & Hl1). fold kept in Hl1.
  destruct (pull_each_live size_bits SIZE SIZE_pos SIZE_fits
              (length kept) q1 d Hwf1) as (q2 & Hpull & Hwf2 & Hl2).
  { by rewrite Hl1. }
  exists q1, q2. split; [done|]. split; [done|]. split.
  - rewrite Hpull, Hl1, firstn_all. done.
  - apply (live_nil SIZE q2 Hwf2). rewrite Hl2, Hl1. apply drop_all.
Qed.

(** X11. After any run of operations from an initialised buffer the write
    index is [count] slots after the read index, circularly; so the two
    indices are equal exactly when the queue is empty or full. The buffer
    keeps its length. *)
Theorem indices_along_runs (q0 : queue_t TYPE) (os : list (op TYPE)) :
  queue_typed q0 → Forall op_ok os →
  ∃ q, run size_bits SIZE os (queue_initialize (Ref q0)).2 = Some (Ref q) ∧
       length (buffer q) = length (buffer q0) ∧
       write_index q = (read_index q + count q) `mod` SIZE ∧
       (write_index q = read_index q ↔ count q = 0 ∨ count q = SIZE).
Proof.
  intros Hty Hok.
  destruct (run_wf size_bits SIZE SIZE_pos SIZE_fits os
              (Queue (buffer q0) 0 0 0)) as (q & Hrun & Hwf);
    [by apply wf_reset|done|].
  exists q. split; [done|].
  destruct Hwf as (Hty' & Hr & Hc & Hw). split; [by rewrite Hty'|].
  split; [done|]. rewrite Hw.
  destruct (mod_once (read_index q + count q) SIZE) as [[? ->]|[? ->]]; lia.
Qed.

Lemma push_no_overwrite_each_cons (self : ptr (queue_t TYPE)) v
    (vs : list TYPE) :
  push_no_overwrite_each self (v :: vs) =
    '(st, self') ← queue_push_no_overwrite self v;
    '(sts, self'') ← push_no_overwrite_each self' vs;
    Some (st :: sts, self'').
Proof. reflexivity. Qed.

(** X12. A run of [queue_push_no_overwrite] calls on a well-formed queue
    accepts values while there is room and rejects all the later ones with
    FULL: the queue ends up holding what it held followed by the accepted
    values, and no element is lost. *)
Theorem push_no_overwrite_each_fills (vs : list TYPE) q :
  wf q →
  let a := (length vs `min` Z.to_nat (SIZE - count q))%nat in
  ∃ q', push_no_overwrite_each (Ref q) vs
          = Some (replicate a QUEUE_OK
                  ++ replicate (length vs - a) QUEUE_ERROR_FULL, Ref q') ∧
        wf q' ∧ live q' = live q ++ take a vs.
Proof.
  revert q. induction vs as [|v vs IH]; intros q Hwf a.
  - exists q. subst a. simpl. by rewrite app_nil_r.
  - rewrite push_no_overwrite_each_cons.
    assert (0 ≤ count q ≤ SIZE) as Hc by (by destruct Hwf as (_ & _ & ? & _)).
    destruct (decide (SIZE ≤ count q)) as [Hfull|Hroom].
    + unfold queue_push_no_overwrite at 1. rewrite decide_True by done.
      simpl. destruct (IH q Hwf) as (q' & -> & Hwf' & Hl).
      exists q'. subst a.
      replace (Z.to_nat (SIZE - count q)) with 0%nat in * by lia.
      rewrite !Nat.min_0_r in *. simpl in *.
      rewrite Nat.sub_0_r, take_0 in *. done.
    + rewrite queue_push_no_overwrite_room by done.
      destruct (queue_push_live size_bits SIZE SIZE_pos SIZE_fits q v Hwf)
        as (q1 & -> & Hwf1 & Hl1).
      rewrite decide_False in Hl1 by done. simpl.
      pose proof (length_live SIZE q Hwf) as Hlen.
      pose proof (length_live SIZE q1 Hwf1) as Hlen1.
      rewrite Hl1, length_app in Hlen1. simpl in Hlen1.
      assert (0 ≤ count q1 ≤ SIZE) as Hc1
        by (by destruct Hwf1 as (_ & _ & ? & _)).
      destruct (IH q1 Hwf1) as (q' & -> & Hwf' & Hl).
      exists q'. subst a. simpl length.
      replace (S (length vs) `min` Z.to_nat (SIZE - count q))%nat
        with (S (length vs `min` Z.to_nat (SIZE - count q1))) by lia.
      simpl. split; [done|]. split; [done|].
      by rewrite Hl, Hl1, <-app_assoc.
Qed.

End QueueUse.

(** ** The string adapter in use *)

Section StringUse.
Variable size_bits : Z.
Variable STRING_SIZE : Z.
Variable QUEUE_SIZE : Z.
Hypothesis QUEUE_SIZE_pos : 0 < QUEUE_SIZE.
Hypothesis QUEUE_SIZE_fits : QUEUE_SIZE < 2 ^ size_bits.
Hypothesis STRING_SIZE_pos : 0 < STRING_SIZE.
Hypothesis STRING_SIZE_fits : STRING_SIZE < 2 ^ size_bits.

Implicit Types (q : queue_t str_t) (s rest out : list ascii).

Local Abbreviation wf := (wf QUEUE_SIZE).
Local Abbreviation push_string :=
  (queue_push_with_string_support size_bits STRING_SIZE QUEUE_SIZE).
Local Abbreviation pull_string :=
  (queue_pull_with_string_support size_bits QUEUE_SIZE).
Local Abbreviation pull_each := (pull_each size_bits QUEUE_SIZE).

(** The element built by [queue_push_with_string_support] does not depend
    on what the local [item] held on entry. *)
Lemma push_string_item q s rest (item : str_t) :
  length (data item) = Z.to_nat STRING_SIZE →
  Forall (λ c, c ≠ NUL) s →
  let n := Z.to_nat (STRING_SIZE - 1) in
  push_string (Ref q) (Ref (s ++ NUL :: rest)) item =
    r ← queue_push size_bits QUEUE_SIZE (Ref q)
          (Str (take n s ++ replicate (n - length s) NUL ++ [NUL]));
    Some r.2.
Proof.
  clear QUEUE_SIZE_pos QUEUE_SIZE_fits.
  intros Hty Hs n. unfold queue_push_with_string_support.
  rewrite size_wrap_small by lia. fold n.
  rewrite strncpy_spec by (done || lia). cbn -[queue_push].
  destruct (drop n (data item)) as [|c tl] eqn:Hdrop.
  { apply (f_equal length) in Hdrop. rewrite length_drop in Hdrop.
    simpl in Hdrop. lia. }
  assert (tl = []) as ->.
  { apply (f_equal length) in Hdrop. rewrite length_drop in Hdrop.
    simpl in Hdrop. apply length_zero_iff_nil. lia. }
  rewrite app_assoc.
  replace (STRING_SIZE - 1)
    with (Z.of_nat (length (take n s ++ replicate (n - length s) NUL))).
  2:{ rewrite length_app, length_take, length_replicate. lia. }
  rewrite store_app_head. cbn -[queue_push]. by rewrite <-app_assoc.
Qed.

(** X13. [queue_pull_with_string_support] returns 0 and writes nothing
    when the queue is empty, when the output capacity is zero, or when a
    pointer is null; in the last two cases it does not dequeue, so a
    stored string is not lost. *)
Theorem pull_string_nothing q out (max_len : Z) (item : str_t) :
  (count q = 0 →
   pull_string (Ref q) (Ref out) max_len item = Some (0, Ref q, Ref out)) ∧
  pull_string (Ref q) (Ref out) 0 item = Some (0, Ref q, Ref out) ∧
  pull_string (Ref q) NULL max_len item = Some (0, Ref q, NULL) ∧
  pull_string NULL (Ref out) max_len item = Some (0, NULL, Ref out).
Proof.
  clear. split; [|done]. intros Hc.
  unfold queue_pull_with_string_support, queue_pull.
  destruct (decide (max_len = 0)); [done|]. by rewrite decide_True.
Qed.

(** X14. Whatever the local [item] held on entry, the element stored by
    [queue_push_with_string_support] is the same: [STRING_SIZE]
    characters, null at index [STRING_SIZE - 1], holding the first
    [STRING_SIZE - 1] characters of the text. It becomes the newest
    element, and a full queue drops its oldest one for it. *)
Theorem push_string_stored q s rest (item item' : str_t) :
  wf q →
  length (data item) = Z.to_nat STRING_SIZE →
  length (data item') = Z.to_nat STRING_SIZE →
  Forall (λ c, c ≠ NUL) s →
  ∃ q' e,
    push_string (Ref q) (Ref (s ++ NUL :: rest)) item = Some (Ref q') ∧
    push_string (Ref q) (Ref (s ++ NUL :: rest)) item' = Some (Ref q') ∧
    wf q' ∧
    live q' = (if decide (QUEUE_SIZE ≤ count q) then drop 1 (live q)
               else live q) ++ [e] ∧
    length (data e) = Z.to_nat STRING_SIZE ∧
    data e !! Z.to_nat (STRING_SIZE - 1) = Some NUL ∧
    c_str (data e) = take (Z.to_nat (STRING_SIZE - 1)) s.
Proof.
  intros Hwf Hty Hty' Hs.
  set (n := Z.to_nat (STRING_SIZE - 1)).
  set (e := Str (take n s ++ replicate (n - length s) NUL ++ [NUL])).
  destruct (queue_push_live size_bits QUEUE_SIZE QUEUE_SIZE_pos
              QUEUE_SIZE_fits q e Hwf) as (q' & Hpush & Hwf' & Hl).
  exists q', e.
  rewrite !push_string_item by done. fold n e. rewrite Hpush.
  split; [done|]. split; [done|]. split; [done|]. split; [done|].
  assert (length (take n s ++ replicate (n - length s) NUL) = n) as Hlen.
  { rewrite length_app, length_take, length_replicate. lia. }
  simpl. rewrite app_assoc. split; [|split].
  - rewrite length_app, Hlen. simpl. lia.
  - rewrite <-Hlen at 1. apply list_lookup_middle. done.
  - rewrite <-app_assoc, replicate_app_cons.
    apply c_str_spec. by apply Forall_take.
Qed.

(** X15. Round trip of a text: pushed, and pulled once the older elements
    are out, into an output array of capacity [max_len ≥ 1], it comes back
    cut to what both capacities allow, [max_len] characters are written
    with a null character last, and the array beyond them keeps its
    content. A text that fits both comes back whole. *)
Theorem string_round_trip q s rest (item0 item1 d : str_t) out
    (max_len : Z) :
  wf q → length (data item0) = Z.to_nat STRING_SIZE →
  Forall (λ c, c ≠ NUL) s →
  0 < max_len < 2 ^ size_bits → max_len ≤ Z.of_nat (length out) →
  ∃ q1 older q2 q3 out',
    push_string (Ref q) (Ref (s ++ NUL :: rest)) item0 = Some (Ref q1) ∧
    pull_each (Ref q1) (Z.to_nat (count q1 - 1)) (Ref d)
      = Some (older, Ref q2) ∧
    pull_string (Ref q2) (Ref out) max_len item1
      = Some (1, Ref q3, Ref out') ∧
    c_str out'
      = take (Z.to_nat ((STRING_SIZE - 1) `min` (max_len - 1))) s ∧
    (Z.of_nat (length s) < STRING_SIZE `min` max_len → c_str out' = s) ∧
    length out' = length out ∧
    out' !! Z.to_nat (max_len - 1) = Some NUL ∧
    drop (Z.to_nat max_len) out' = drop (Z.to_nat max_len) out.
Proof.
  intros Hwf Hty Hs Hmax Hout.
  set (n := Z.to_nat (STRING_SIZE - 1)).
  set (m := Z.to_nat (max_len - 1)).
  destruct (push_string_live size_bits STRING_SIZE QUEUE_SIZE QUEUE_SIZE_pos
              QUEUE_SIZE_fits STRING_SIZE_pos STRING_SIZE_fits
              q s rest item0 Hwf Hty Hs)
    as (q1 & Hpush & Hwf1 & Hl1). fold n in Hl1.
  set (item := Str (take n s ++ replicate (n - length s) NUL ++ [NUL])) in *.
  set (l := if decide (QUEUE_SIZE ≤ count q) then drop 1 (live q)
            else live q) in *.
  pose proof (length_live QUEUE_SIZE q1 Hwf1) as Hc1.
  rewrite Hl1, length_app in Hc1. simpl in Hc1.
  destruct (pull_each_live size_bits QUEUE_SIZE QUEUE_SIZE_pos
              QUEUE_SIZE_fits (length l) q1 d Hwf1)
    as (q2 & Hpull & Hwf2 & Hl2).
  { rewrite Hl1, length_app. lia. }
  rewrite Hl1, drop_app_length in Hl2.
  assert (count q2 ≠ 0) as Hc2.
  { intros Hc. apply (live_nil QUEUE_SIZE q2 Hwf2) in Hc.
    by rewrite Hc in Hl2. }
  destruct (load_read_index size_bits QUEUE_SIZE QUEUE_SIZE_pos
              QUEUE_SIZE_fits q2 Hwf2 Hc2) as (e & He & Hhead).
  rewrite Hl2 in Hhead. injection Hhead as <-.
  destruct (pull_string_oldest size_bits QUEUE_SIZE q2 item (take n s)
              (replicate (n - length s) NUL) out max_len item1)
    as (q3 & Hout'); try done.
  { destruct Hwf2 as (_ & _ & ? & _). lia. }
  { simpl. by rewrite replicate_app_cons, app_nil_r. }
  { by apply Forall_take. }
  fold m in Hout'. rewrite take_take, replicate_app_cons in Hout'.
  assert (Forall (λ c, c ≠ NUL) (take (m `min` n) s)) as Hs'
    by (by apply Forall_take).
  set (pad := replicate (m - length (take n s)) NUL) in *.
  assert (length (take (m `min` n) s ++ pad) = m) as Hlen.
  { unfold pad. rewrite length_app, !length_take, length_replicate. lia. }
  exists q1, ((λ x, (QUEUE_OK, Ref x)) <$> take (length l) (live q1)), q2, q3.
  eexists. split; [done|]. split.
  { replace (Z.to_nat (count q1 - 1)) with (length l) by lia. done. }
  split; [done|].
  assert (c_str (take (m `min` n) s ++ NUL :: pad
                 ++ drop (Z.to_nat max_len) out)
          = take (Z.to_nat ((STRING_SIZE - 1) `min` (max_len - 1))) s) as Hstr.
  { rewrite c_str_spec by done. f_equal. lia. }
  split; [done|]. split.
  { intros Hfit. rewrite Hstr. apply take_ge. lia. }
  subst pad. rewrite <-replicate_app_cons, app_assoc. split; [|split].
  - rewrite length_app, Hlen. simpl. rewrite length_drop. lia.
  - rewrite <-Hlen at 1. by apply list_lookup_middle.
  - rewrite cons_middle, app_assoc. apply drop_app_length'.
    rewrite length_app, Hlen. simpl. lia.
Qed.

End StringUse.

(** ** <stdio.h> facts *)

(** Writing into the zeroed tail of an array. *)
Lemma snprintf_zeros (X text : list ascii) (j : nat) (n : Z) :
  n ≠ 0 →
  let k := Z.to_nat (Z.of_nat (length text) `min` (n - 1)) in
  (k < j)%nat →
  snprintf (X ++ replicate j NUL) (Z.of_nat (length X)) n (Formatted text)
    = Some (X ++ take k text ++ replicate (j - k) NUL,
            Z.of_nat (length text)).
Proof.
  intros Hn k Hk. unfold snprintf. rewrite decide_False by done. fold k.
  rewrite decide_True by (rewrite length_app, length_replicate; lia).
  rewrite Nat2Z.id, take_app_length. do 3 f_equal.
  rewrite <-Nat.add_assoc, drop_app_add', drop_replicate by done.
  replace (j - k)%nat with (S (j - (k + 1))) by lia. done.
Qed.

Lemma snprintf_start (text : list ascii) (j : nat) (n : Z) :
  n ≠ 0 →
  let k := Z.to_nat (Z.of_nat (length text) `min` (n - 1)) in
  (k < j)%nat →
  snprintf (replicate j NUL) 0 n (Formatted text)
    = Some (take k text ++ replicate (j - k) NUL, Z.of_nat (length text)).
Proof. exact (snprintf_zeros [] text j n). Qed.

Lemma store_zeros (X : list ascii) (j : nat) (c : ascii) :
  (0 < j)%nat →
  store (X ++ replicate j NUL) (Z.of_nat (length X)) c
    = Some ((X ++ [c]) ++ replicate (j - 1) NUL).
Proof.
  intros Hj. destruct j as [|j]; [lia|]. simpl.
  rewrite store_app_head, Nat.sub_0_r. by rewrite <-app_assoc.
Qed.

Lemma store_last_three (l : list ascii) (n : nat) (a b c : ascii) :
  length l = (n + 3)%nat →
  (b1 ← store l (Z.of_nat n) a;
   b2 ← store b1 (Z.of_nat n + 1) b;
   store b2 (Z.of_nat n + 2) c) = Some (take n l ++ [a; b; c]).
Proof.
  intros Hlen. rewrite <-(take_drop n l) at 1.
  assert (length (take n l) = n) as Htl by (rewrite length_take; lia).
  destruct (drop n l) as [|x [|y [|z [|? ?]]]] eqn:Hd;
    apply (f_equal length) in Hd; rewrite length_drop in Hd;
    simpl in Hd; try lia.
  remember (take n l) as t eqn:Ht. clear Ht Hd Hlen l. subst n.
  rewrite store_app_head. simpl.
  replace (Z.of_nat (length t) + 1) with (Z.of_nat (length (t ++ [a])))
    by (rewrite length_app; simpl; lia).
  replace (t ++ a :: y :: [z]) with ((t ++ [a]) ++ y :: [z])
    by (by rewrite <-app_assoc).
  rewrite store_app_head. simpl.
  replace (Z.of_nat (length t) + 2)
    with (Z.of_nat (length ((t ++ [a]) ++ [b])))
    by (rewrite !length_app; simpl; lia).
  replace ((t ++ [a]) ++ b :: [z]) with (((t ++ [a]) ++ [b]) ++ z :: [])
    by (by rewrite <-!app_assoc).
  rewrite store_app_head. by rewrite <-!app_assoc.
Qed.

(** ** The logger *)

Section LoggerProofs.
Context {handler : Type}.
Variable size_bits : Z.
Variable TAG : list ascii.
Variable MAX_LENGTH : Z.
Variable LOG_INTERNAL_BUFFER : Z.
(** [MAX_LENGTH] is the length of [char buffer[MAX_LENGTH]]. *)
Hypothesis MAX_LENGTH_pos : 0 < MAX_LENGTH.
Hypothesis MAX_LENGTH_fits : MAX_LENGTH < 2 ^ size_bits.

Implicit Types (st : log_state handler) (level : log_level_e)
  (tag msg text : list ascii) (h : handler).

Local Abbreviation log_write := (log_write size_bits MAX_LENGTH).
Local Abbreviation log_at :=
  (log_at size_bits TAG MAX_LENGTH LOG_INTERNAL_BUFFER).

(** The message passes the two flags. *)
Local Abbreviation passes st level :=
  (log_enabled st = true ∧
   level_value (log_min_level st) ≤ level_value level).

Lemma log_prefix_length level tag :
  length (log_prefix level tag) = (8 + length tag)%nat.
Proof. unfold log_prefix. destruct level; simpl; rewrite length_app; simpl; lia. Qed.

Lemma passes_flags st level :
  passes st level →
  negb (log_enabled st)
  || bool_decide (level_value level < level_value (log_min_level st)) = false.
Proof.
  intros [-> ?]. simpl. apply bool_decide_eq_false. lia.
Qed.

(** [log_write] up to the line ending, when the prefix fits. *)
Lemma log_write_steps st level tag msg h :
  passes st level → log_handler st = Ref h →
  let P := log_prefix level tag in
  let p := Z.of_nat (length P) in
  let len := Z.of_nat (length msg) in
  let k := Z.to_nat (len `min` (MAX_LENGTH - p - 1)) in
  let buffer := P ++ take k msg
                ++ replicate (Z.to_nat (MAX_LENGTH - p) - k) NUL in
  p < MAX_LENGTH →
  log_write st level tag (Ref (Formatted msg)) =
    let offset := if decide (MAX_LENGTH - p ≤ len) then MAX_LENGTH - 3
                  else p + len in
    b ← (if decide (offset < MAX_LENGTH - 2)
         then b1 ← store buffer offset CR;
              b2 ← store b1 (offset + 1) LF;
              store b2 (offset + 2) NUL
         else Some buffer);
    Some (Some (h, b)).
Proof.
  intros Hpass Hh P p len k buffer Hp.
  pose proof (log_prefix_length level tag) as HP. fold P in HP.
  unfold log_write. rewrite passes_flags, Hh by done. fold P.
  clearbody P.
  rewrite snprintf_start by lia. cbn -[snprintf size_wrap store]. fold p.
  rewrite decide_False by lia.
  replace (Z.to_nat (p `min` (MAX_LENGTH - 1))) with (length P) by lia.
  rewrite take_ge by lia.
  rewrite (size_wrap_small _ (MAX_LENGTH - p)) by lia.
  unfold p at 1. rewrite snprintf_zeros by lia.
  cbn -[snprintf size_wrap store]. fold p len k.
  rewrite decide_False by lia.
  replace (Z.to_nat MAX_LENGTH - length P)%nat
    with (Z.to_nat (MAX_LENGTH - p)) by lia.
  fold buffer.
  rewrite (size_wrap_small _ (MAX_LENGTH - 3)) by lia.
  rewrite (size_wrap_small _ (MAX_LENGTH - 2)) by lia.
  destruct (decide (MAX_LENGTH - p ≤ len)) as [Hlong|Hshort].
  - rewrite !size_wrap_small by lia. done.
  - rewrite (size_wrap_small _ (p + len)) by lia.
    destruct (decide (p + len < MAX_LENGTH - 2)); [|done].
    rewrite !size_wrap_small by lia. done.
Qed.

Lemma log_write_fits st level tag msg h :
  passes st level → log_handler st = Ref h →
  let P := log_prefix level tag in
  let used := (length P + length msg)%nat in
  Z.of_nat used < MAX_LENGTH - 2 →
  log_write st level tag (Ref (Formatted msg))
    = Some (Some (h, P ++ msg ++ [CR; LF]
                     ++ replicate (Z.to_nat MAX_LENGTH - used - 2) NUL)).
Proof.
  intros Hpass Hh P used Hfit. subst used P.
  rewrite (log_write_steps st level tag msg h) by (done || lia).
  remember (log_prefix level tag) as P eqn:HeqP. clear HeqP.
  cbn zeta. destruct (decide (MAX_LENGTH - _ ≤ _)); [lia|].
  destruct (decide (_ < _)); [|lia].
  replace (Z.to_nat (Z.of_nat (length msg)
                     `min` (MAX_LENGTH - Z.of_nat (length P) - 1)))
    with (length msg) by lia.
  rewrite take_ge by lia. rewrite app_assoc.
  replace (Z.of_nat (length P) + Z.of_nat (length msg))
    with (Z.of_nat (length (P ++ msg))) by (rewrite length_app; lia).
  rewrite store_zeros by lia. cbn -[store].
  replace (Z.of_nat (length (P ++ msg)) + 1)
    with (Z.of_nat (length ((P ++ msg) ++ [CR])))
    by (rewrite !length_app; simpl; lia).
  rewrite store_zeros by lia. cbn -[store].
  replace (Z.of_nat (length (P ++ msg)) + 2)
    with (Z.of_nat (length (((P ++ msg) ++ [CR]) ++ [LF])))
    by (rewrite !length_app; simpl; lia).
  rewrite store_zeros by lia. cbn -[store]. do 3 f_equal.
  rewrite <-!app_assoc. simpl. do 4 f_equal.
  replace (Z.to_nat MAX_LENGTH - (length P + length msg) - 2)%nat
    with (S (Z.to_nat (MAX_LENGTH - Z.of_nat (length P)) - length msg
             - 1 - 1 - 1)) by lia.
  done.
Qed.

Lemma log_write_tight st level tag msg h :
  passes st level → log_handler st = Ref h →
  let P := log_prefix level tag in
  let used := (length P + length msg)%nat in
  MAX_LENGTH - 2 ≤ Z.of_nat used < MAX_LENGTH →
  log_write st level tag (Ref (Formatted msg))
    = Some (Some (h, P ++ msg ++ replicate (Z.to_nat MAX_LENGTH - used) NUL)).
Proof.
  intros Hpass Hh P used Hfit. subst used P.
  rewrite (log_write_steps st level tag msg h) by (done || lia).
  remember (log_prefix level tag) as P eqn:HeqP. clear HeqP.
  cbn zeta. destruct (decide (MAX_LENGTH - _ ≤ _)); [lia|].
  destruct (decide (_ < _)); [lia|].
  replace (Z.to_nat (Z.of_nat (length msg)
                     `min` (MAX_LENGTH - Z.of_nat (length P) - 1)))
    with (length msg) by lia.
  rewrite take_ge by lia. simpl. do 5 f_equal.
  f_equal. lia.
Qed.

Lemma log_write_long st level tag msg h :
  passes st level → log_handler st = Ref h →
  let P := log_prefix level tag in
  Z.of_nat (length P) < MAX_LENGTH ≤ Z.of_nat (length P + length msg) →
  log_write st level tag (Ref (Formatted msg))
    = Some (Some (h, take (Z.to_nat (MAX_LENGTH - 3)) (P ++ msg)
                     ++ [CR; LF; NUL])).
Proof.
  intros Hpass Hh P Hlong. subst P.
  pose proof (log_prefix_length level tag) as HP.
  rewrite (log_write_steps st level tag msg h) by (done || lia).
  remember (log_prefix level tag) as P eqn:HeqP. clear HeqP.
  cbn zeta. destruct (decide (MAX_LENGTH - _ ≤ _)); [|lia].
  destruct (decide (_ < _)); [|lia].
  set (k := Z.to_nat (Z.of_nat (length msg)
                      `min` (MAX_LENGTH - Z.of_nat (length P) - 1))).
  set (buffer := P ++ take k msg ++ _).
  set (n := Z.to_nat (MAX_LENGTH - 3)).
  assert (length buffer = (n + 3)%nat) as Hlen.
  { unfold buffer. rewrite !length_app, length_take, length_replicate. lia. }
  assert (MAX_LENGTH - 3 = Z.of_nat n) as -> by lia.
  rewrite store_last_three by done. simpl. do 4 f_equal.
  unfold buffer. rewrite app_assoc, take_app_le.
  2:{ rewrite length_app, length_take. lia. }
  rewrite !take_app. rewrite take_take. do 2 f_equal. lia.
Qed.

Lemma log_write_none st level tag (fmt : ptr format_result) :
  log_enabled st = false ∨
  level_value level < level_value (log_min_level st) ∨
  log_handler st = NULL ∨ fmt = NULL ∨ fmt = Ref FormatError ∨
  MAX_LENGTH ≤ 8 + Z.of_nat (length tag) →
  log_write st level tag fmt = Some None.
Proof.
  intros Hcase. unfold log_write.
  destruct (log_enabled st) eqn:Hen; [|done]. cbn [negb orb].
  case_bool_decide as Hlv; [done|].
  destruct (log_handler st) as [|h] eqn:Hh; [done|].
  destruct fmt as [|f]; [done|].
  pose proof (log_prefix_length level tag) as HP.
  remember (log_prefix level tag) as P eqn:HeqP. clear HeqP.
  rewrite snprintf_start by lia. cbn -[snprintf size_wrap store].
  destruct (decide (_ ∨ _)) as [|Hfit]; [done|].
  destruct Hcase as [?|[?|[?|[?|[[= ->]|?]]]]]; try done; lia.
Qed.

(** X16. [log_write] calls the handler only for a message that passes both
    flags; with logging disabled, a level below the filter, no handler
    registered, a null format, a format error, or a tag too long for the
    prefix to fit the buffer, no call is made. *)
Theorem log_write_silent st level tag (fmt : ptr format_result) :
  log_enabled st = false ∨
  level_value level < level_value (log_min_level st) ∨
  log_handler st = NULL ∨ fmt = NULL ∨ fmt = Ref FormatError ∨
  MAX_LENGTH ≤ 8 + Z.of_nat (length tag) →
  log_write st level tag fmt = Some None.
Proof. apply log_write_none. Qed.

(** X17. A line that fits the buffer with room for the line ending is
    handed to the handler as prefix, message, CR, LF, and null characters
    up to the end of the buffer. *)
Theorem log_write_line st level tag msg h :
  passes st level → log_handler st = Ref h →
  8 + Z.of_nat (length tag) + Z.of_nat (length msg) < MAX_LENGTH - 2 →
  ∃ pad,
    log_write st level tag (Ref (Formatted msg))
      = Some (Some (h, ["["%char] ++ level_str level ++ ["]"; " "; "("]%char
                       ++ tag ++ [")"; ":"; " "]%char ++ msg ++ [CR; LF]
                       ++ replicate pad NUL)) ∧
    Z.of_nat pad = MAX_LENGTH - 10 - Z.of_nat (length tag)
                   - Z.of_nat (length msg) ∧
    (0 < pad)%nat.
Proof.
  intros Hpass Hh Hfit.
  pose proof (log_prefix_length level tag) as HP.
  exists (Z.to_nat (MAX_LENGTH - 10 - Z.of_nat (length tag)
                    - Z.of_nat (length msg))).
  split; [|lia].
  rewrite (log_write_fits st level tag msg h) by (done || lia).
  replace (Z.to_nat MAX_LENGTH - (length (log_prefix level tag) + length msg)
           - 2)%nat
    with (Z.to_nat (MAX_LENGTH - 10 - Z.of_nat (length tag)
                    - Z.of_nat (length msg))) by lia.
  unfold log_prefix. by rewrite <-!app_assoc.
Qed.

(** X18. A line longer than the buffer is cut: the handler gets the first
    [MAX_LENGTH - 3] characters of prefix and message, then CR, LF and the
    null character, which fill the buffer. *)
Theorem log_write_truncates st level tag msg h :
  passes st level → log_handler st = Ref h →
  8 + Z.of_nat (length tag) < MAX_LENGTH →
  MAX_LENGTH ≤ 8 + Z.of_nat (length tag) + Z.of_nat (length msg) →
  log_write st level tag (Ref (Formatted msg))
    = Some (Some (h, take (Z.to_nat (MAX_LENGTH - 3))
                          (log_prefix level tag ++ msg)
                     ++ [CR; LF; NUL])).
Proof.
  intros Hpass Hh Hp Hlong.
  pose proof (log_prefix_length level tag) as HP.
  apply log_write_long; [done..|lia].
Qed.

(** X19. A line that fits the buffer with no more than one character to
    spare is handed to the handler without the CR LF line ending. *)
Theorem log_write_no_line_ending st level tag msg h :
  passes st level → log_handler st = Ref h →
  MAX_LENGTH - 2 ≤ 8 + Z.of_nat (length tag) + Z.of_nat (length msg)
    < MAX_LENGTH →
  ∃ pad,
    log_write st level tag (Ref (Formatted msg))
      = Some (Some (h, log_prefix level tag ++ msg ++ replicate pad NUL)) ∧
    (1 ≤ pad ≤ 2)%nat.
Proof.
  intros Hpass Hh Hfit.
  pose proof (log_prefix_length level tag) as HP.
  eexists. split.
  - apply log_write_tight; [done..|lia].
  - lia.
Qed.

Lemma last_zeros (l : list ascii) (n : nat) :
  (0 < n)%nat → last (l ++ replicate n NUL) = Some NUL.
Proof.
  intros Hn. destruct n as [|n]; [lia|].
  by rewrite replicate_S_end, app_assoc, last_snoc.
Qed.

(** X20. [log_write] always returns, whatever the tag, the message and the
    buffer size, without an access outside its buffer; when it calls a
    handler, it is the registered one, the message passed both flags, and
    the array handed over has [MAX_LENGTH] characters of which the last is
    the null character. *)
Theorem log_write_safe st level tag (fmt : ptr format_result) :
  ∃ r, log_write st level tag fmt = Some r ∧
       ∀ h buf, r = Some (h, buf) →
         log_handler st = Ref h ∧ passes st level ∧
         Z.of_nat (length buf) = MAX_LENGTH ∧ last buf = Some NUL.
Proof.
  pose proof (log_prefix_length level tag) as HP.
  destruct (log_enabled st) eqn:Hen;
    [|exists None; split; [apply log_write_none; by auto 10|done]].
  destruct (decide (level_value level < level_value (log_min_level st)));
    [exists None; split; [apply log_write_none; by auto 10|done]|].
  destruct (log_handler st) as [|h] eqn:Hh;
    [exists None; split; [apply log_write_none; by auto 10|done]|].
  destruct fmt as [|[|msg]];
    [exists None; split; [apply log_write_none; by auto 10|done]..|].
  destruct (decide (MAX_LENGTH ≤ 8 + Z.of_nat (length tag)));
    [exists None; split; [apply log_write_none; by auto 10|done]|].
  assert (passes st level) as Hpass by (split; [done|lia]).
  set (used := (length (log_prefix level tag) + length msg)%nat).
  destruct (decide (Z.of_nat used < MAX_LENGTH - 2)) as [Hfit|Hnofit];
    [|destruct (decide (Z.of_nat used < MAX_LENGTH)) as [Htight|Hlong]].
  - eexists. split; [by apply (log_write_fits st level tag msg h)|].
    match goal with |- context [Some (h, ?b)] => remember b as b0 eqn:Hb end.
    intros h' buf [= <- <-]. rewrite Hb. split; [done|].
    split; [split; [done|lia]|]. split.
    + rewrite !length_app, length_replicate. cbn [length]. lia.
    + rewrite !app_assoc. apply last_zeros. lia.
  - eexists.
    split; [apply (log_write_tight st level tag msg h); [done..|lia]|].
    match goal with |- context [Some (h, ?b)] => remember b as b0 eqn:Hb end.
    intros h' buf [= <- <-]. rewrite Hb. split; [done|].
    split; [split; [done|lia]|]. split.
    + rewrite !length_app, length_replicate. lia.
    + rewrite !app_assoc. apply last_zeros. lia.
  - eexists.
    split; [apply (log_write_long st level tag msg h); [done..|lia]|].
    match goal with |- context [Some (h, ?b)] => remember b as b0 eqn:Hb end.
    intros h' buf [= <- <-]. rewrite Hb. split; [done|].
    split; [split; [done|lia]|]. split.
    + rewrite !length_app, length_take, length_app. cbn [length]. lia.
    + by rewrite (app_assoc _ [CR; LF] [NUL]), last_snoc.
Qed.



(** X22. While a tag is disabled, or for a level below the filter, the
    four level functions return before anything is formatted, so that even
    a null format is harmless; with the filter at NONE all four are
    silent. *)
Theorem level_functions_filtered st (fmt : ptr format_result)
    (temp_fmt : list ascii) :
  let silent f :=
    f size_bits TAG MAX_LENGTH LOG_INTERNAL_BUFFER st fmt temp_fmt
    = Some None in
  (log_enabled st = false ∨ log_min_level st = LOG_LEVEL_NONE →
   silent (@LOG_ERROR handler) ∧ silent (@LOG_WARNING handler) ∧
   silent (@LOG_INFO handler) ∧ silent (@LOG_DEBUG handler)) ∧
  (log_min_level st = LOG_LEVEL_ERROR →
   silent (@LOG_WARNING handler) ∧ silent (@LOG_INFO handler) ∧
   silent (@LOG_DEBUG handler)) ∧
  (log_min_level st = LOG_LEVEL_WARNING →
   silent (@LOG_INFO handler) ∧ silent (@LOG_DEBUG handler)) ∧
  (log_min_level st = LOG_LEVEL_INFO → silent (@LOG_DEBUG handler)).
Proof.
  clear. intros silent. unfold silent, LOG_ERROR, LOG_WARNING, LOG_INFO,
    LOG_DEBUG, log_at.
  repeat split; intros; destruct_or?; simplify_eq/=;
    repeat match goal with H : _ = _ |- _ => rewrite H end;
    by rewrite ?orb_true_r.
Qed.

End LoggerProofs.

(** * Concrete runs

    A queue of four integers on a target with a 32-bit [size_t], and a
    queue of two strings of capacity four. *)

(** C1. With a valid handle, a valid output array and a requested length of
    zero, [queue_pull_multiple] returns NULL_POINTER: the status
    INVALID_LENGTH of the enumeration is not the one returned. *)
Example pull_multiple_zero_length_status :
  queue_pull_multiple 32 4 (Ref (Queue [5; 0; 0; 0] 1 0 1)) (Ref [0]) 0 (Ref 7)
    = Some (QUEUE_ERROR_NULL_POINTER, Ref (Queue [5; 0; 0; 0] 1 0 1),
            Ref [0], Ref 7) ∧
  QUEUE_ERROR_NULL_POINTER ≠ QUEUE_ERROR_INVALID_LENGTH.
Proof. split; [apply queue_pull_multiple_zero_length|discriminate]. Qed.

Lemma wf_4_fresh : wf 4 (Queue [0; 0; 0; 0] 0 0 0).
Proof. repeat split; simpl; lia. Defined.

Lemma fifo_order_witness :
  ∃ q1 q2,
    push_each 32 4 (Ref (Queue [0; 0; 0; 0] 0 0 0)) [170; 187; 204]
      = Some ([QUEUE_OK; QUEUE_OK; QUEUE_OK], Ref q1) ∧
    pull_each 32 4 (Ref q1) 3 (Ref 0)
      = Some ([(QUEUE_OK, Ref 170); (QUEUE_OK, Ref 187); (QUEUE_OK, Ref 204)],
              Ref q2).
Proof.
  exact (fifo_order 32 4 eq_refl eq_refl (Queue [0; 0; 0; 0] 0 0 0)
           [170; 187; 204] 0 wf_4_fresh eq_refl ltac:(simpl; lia)).
Defined.

(** The scenario of the specification: 0xAA .. 0xDD fill the queue, 0xEE
    overwrites 0xAA. *)
Lemma overwrite_policy_witness :
  ∃ q1 q2,
    push_each 32 4 (Ref (Queue [0; 0; 0; 0] 0 0 0)) [170; 187; 204; 221; 238]
      = Some (replicate 5 QUEUE_OK, Ref q1) ∧
    live q1 = [187; 204; 221; 238] ∧
    pull_each 32 4 (Ref q1) 4 (Ref 0)
      = Some ([(QUEUE_OK, Ref 187); (QUEUE_OK, Ref 204); (QUEUE_OK, Ref 221);
               (QUEUE_OK, Ref 238)], Ref q2) ∧
    ∀ d', queue_pull 32 4 (Ref q2) (Ref d')
            = Some (QUEUE_ERROR_EMPTY, Ref q2, Ref d').
Proof.
  exact (overwrite_policy 32 4 eq_refl eq_refl (Queue [0; 0; 0; 0] 0 0 0)
           [170; 187; 204; 221; 238] 0 wf_4_fresh eq_refl eq_refl).
Defined.

Lemma push_no_overwrite_full_witness :
  ∃ self',
    queue_push_no_overwrite 32 4 (Ref (Queue [1; 2; 3; 4] 1 1 4)) 9
      = Some (QUEUE_ERROR_FULL, self') ∧
    self' = Ref (Queue [1; 2; 3; 4] 1 1 4) ∧
    ∃ q', queue_pull 32 4 self' (Ref 0) = Some (QUEUE_OK, Ref q', Ref 2).
Proof.
  exact (push_no_overwrite_full 32 4 eq_refl (Queue [1; 2; 3; 4] 1 1 4)
           9 2 0 eq_refl eq_refl).
Defined.

Lemma wf_4_two : wf 4 (Queue [1; 2; 3; 4] 0 2 2).
Proof. repeat split; simpl; lia. Defined.

Lemma capacity_bound_witness :
  ∃ q,
    run 32 4
      [OpPush 1; OpPush 2; OpPull (Ref 0);
       OpPullMultiple (Ref [0; 0]) 2 (Ref 0); OpPeek (Ref 0); OpClear;
       OpPushNoOverwrite 3; OpInitialize]
      (queue_initialize (Ref (Queue [0; 0; 0; 0] 9 9 9))).2 = Some (Ref q) ∧
    0 ≤ count q ≤ 4 ∧ 0 ≤ read_index q < 4 ∧ 0 ≤ write_index q < 4.
Proof.
  apply (capacity_bound 32 4 eq_refl eq_refl).
  - reflexivity.
  - repeat constructor. simpl. lia.
Defined.

Lemma pull_multiple_drains_witness :
  ∃ q',
    queue_pull_multiple 32 4 (Ref (Queue [1; 2; 3; 4] 0 2 2))
      (Ref [0; 0; 0]) 3 (Ref 0)
      = Some (QUEUE_OK, Ref q', Ref [3; 4; 0], Ref 2) ∧
    count q' = 0 ∧ queue_is_empty (Ref q') = true.
Proof.
  exact (pull_multiple_drains 32 4 eq_refl eq_refl
           (Queue [1; 2; 3; 4] 0 2 2) [0; 0; 0] 3 0 wf_4_two
           eq_refl eq_refl ltac:(simpl; lia)).
Defined.

Lemma status_queries_witness :
  (queue_is_empty (Ref (Queue [1; 2; 3; 4] 0 2 2)) = true ↔ 2 = 0) ∧
  (queue_is_full 4 (Ref (Queue [1; 2; 3; 4] 0 2 2)) = true ↔ 2 = 4) ∧
  queue_available_space 32 4 (Ref (Queue [1; 2; 3; 4] 0 2 2)) = 4 - 2 ∧
  queue_is_empty (@NULL (queue_t Z)) = true ∧
  queue_available_space 32 4 (@NULL (queue_t Z)) = 0.
Proof.
  exact (status_queries 32 4 eq_refl (Queue [1; 2; 3; 4] 0 2 2)
           ltac:(simpl; lia)).
Defined.

Lemma peek_frame_witness :
  queue_peek (Ref (Queue [1; 2; 3; 4] 0 0 0)) (Ref 7)
    = Some (QUEUE_ERROR_EMPTY, Ref (Queue [1; 2; 3; 4] 0 0 0), Ref 7) ∧
  queue_peek (Ref (Queue [1; 2; 3; 4] 0 2 2)) (Ref 7)
    = Some (QUEUE_OK, Ref (Queue [1; 2; 3; 4] 0 2 2), Ref 3).
Proof.
  split.
  - exact (proj1 (peek_frame (Queue [1; 2; 3; 4] 0 0 0) 7) eq_refl).
  - exact (proj2 (peek_frame (Queue [1; 2; 3; 4] 0 2 2) 7) 3 eq_refl eq_refl).
Defined.

Lemma wf_2_fresh :
  wf 2 (Queue [Str [NUL; NUL; NUL; NUL]; Str [NUL; NUL; NUL; NUL]] 0 0 0).
Proof. repeat split; simpl; lia. Defined.

(** "Hello" pushed into strings of capacity four comes back as "Hel"; "abc"
    pulled into an array of capacity two comes back as "a". *)
Lemma string_truncation_witness :
  (∃ q1 older q2 q3 out',
     queue_push_with_string_support 32 4 2
       (Ref (Queue [Str [NUL; NUL; NUL; NUL]; Str [NUL; NUL; NUL; NUL]] 0 0 0))
       (Ref (["H"; "e"; "l"; "l"; "o"; NUL])%char)
       (Str ["?"; "?"; "?"; "?"]%char)
       = Some (Ref q1) ∧
     pull_each 32 2 (Ref q1) (Z.to_nat (count q1 - 1)) (Ref (Str []))
       = Some (older, Ref q2) ∧
     queue_pull_with_string_support 32 2 (Ref q2)
       (Ref ["x"; "x"; "x"; "x"; "x"; "x"; "x"; "x"]%char) 6 (Str [])
       = Some (1, Ref q3, Ref out') ∧
     out' = ["H"; "e"; "l"; NUL; NUL; NUL; "x"; "x"]%char ∧
     c_str out' = ["H"; "e"; "l"]%char) ∧
  (∃ q' out',
     queue_pull_with_string_support 32 2
       (Ref (Queue [Str ["a"; "b"; "c"; NUL]%char; Str [NUL; NUL; NUL; NUL]]
                   1 0 1))
       (Ref ["x"; "x"; "x"]%char) 2 (Str [])
       = Some (1, Ref q', Ref out') ∧
     out' = ["a"; NUL; "x"]%char ∧
     c_str out' = ["a"]%char).
Proof.
  split.
  - exact (proj1 (string_truncation 32 4 2 eq_refl eq_refl eq_refl eq_refl)
             (Queue [Str [NUL; NUL; NUL; NUL]; Str [NUL; NUL; NUL; NUL]] 0 0 0)
             (["H"; "e"; "l"; "l"; "o"])%char [] (Str ["?"; "?"; "?"; "?"]%char)
             (Str []) (Str []) ["x"; "x"; "x"; "x"; "x"; "x"; "x"; "x"]%char 6
             wf_2_fresh eq_refl
             ltac:(repeat first [done | constructor])
             eq_refl ltac:(done) ltac:(simpl; lia)).
  - exact (proj2 (string_truncation 32 4 2 eq_refl eq_refl eq_refl eq_refl)
             (Queue [Str ["a"; "b"; "c"; NUL]%char; Str [NUL; NUL; NUL; NUL]]
                    1 0 1)
             (Str ["a"; "b"; "c"; NUL]%char) ["a"; "b"; "c"]%char []
             (Str []) ["x"; "x"; "x"]%char 2
             eq_refl eq_refl eq_refl
             ltac:(repeat first [done | constructor])
             ltac:(simpl; lia) eq_refl ltac:(simpl; lia)).
Defined.

Lemma wf_4_full : wf 4 (Queue [1; 2; 3; 4] 1 1 4).
Proof. repeat split; simpl; lia. Defined.

Lemma wf_4_three : wf 4 (Queue [1; 2; 3; 4] 0 1 3).
Proof. repeat split; simpl; lia. Defined.

Lemma clear_resets_witness :
  ∃ q', queue_clear (Ref (Queue [1; 2; 3; 4] 7 9 11)) = Ref q' ∧
        buffer q' = [1; 2; 3; 4] ∧ wf 4 q' ∧ live q' = [] ∧
        queue_count (Ref q') = 0 ∧
        queue_is_empty (Ref q') = true ∧
        queue_is_full 4 (Ref q') = false ∧
        queue_available_space 32 4 (Ref q') = 4 ∧
        queue_peek_ptr (Ref q') = None ∧
        (∀ d, queue_pull 32 4 (Ref q') (Ref d)
                = Some (QUEUE_ERROR_EMPTY, Ref q', Ref d)) ∧
        queue_clear (Ref q') = Ref q' ∧
        queue_initialize (Ref (Queue [1; 2; 3; 4] 7 9 11)) = (QUEUE_OK, Ref q').
Proof.
  exact (clear_resets 32 4 eq_refl eq_refl (Queue [1; 2; 3; 4] 7 9 11)
           eq_refl).
Defined.

Lemma count_is_live_length_witness :
  queue_count (Ref (Queue [1; 2; 3; 4] 0 2 2)) = 2 ∧
  queue_count (Ref (Queue [1; 2; 3; 4] 0 2 2))
  + queue_available_space 32 4 (Ref (Queue [1; 2; 3; 4] 0 2 2)) = 4.
Proof.
  exact (count_is_live_length 32 4 eq_refl (Queue [1; 2; 3; 4] 0 2 2)
           wf_4_two).
Defined.

Lemma push_keeps_newest_witness :
  ∃ q', queue_push 32 4 (Ref (Queue [1; 2; 3; 4] 1 1 4)) 9
          = Some (QUEUE_OK, Ref q') ∧ wf 4 q' ∧
        live q' = [3; 4; 1; 9] ∧ last (live q') = Some 9 ∧ count q' = 4.
Proof.
  exact (push_keeps_newest 32 4 eq_refl eq_refl (Queue [1; 2; 3; 4] 1 1 4) 9
           wf_4_full).
Defined.

Lemma push_no_overwrite_appends_witness :
  ∃ q', queue_push_no_overwrite 32 4 (Ref (Queue [1; 2; 3; 4] 0 2 2)) 9
          = Some (QUEUE_OK, Ref q') ∧
        queue_push 32 4 (Ref (Queue [1; 2; 3; 4] 0 2 2)) 9
          = Some (QUEUE_OK, Ref q') ∧
        wf 4 q' ∧ live q' = [3; 4; 9] ∧ count q' = 3.
Proof.
  exact (push_no_overwrite_appends 32 4 eq_refl eq_refl
           (Queue [1; 2; 3; 4] 0 2 2) 9 wf_4_two eq_refl).
Defined.

Lemma pull_takes_oldest_witness :
  ∃ x q', queue_pull 32 4 (Ref (Queue [1; 2; 3; 4] 0 2 2)) (Ref 0)
            = Some (QUEUE_OK, Ref q', Ref x) ∧
          wf 4 q' ∧ [3; 4] = x :: live q' ∧
          buffer q' = [1; 2; 3; 4] ∧ write_index q' = 0 ∧ count q' = 1.
Proof.
  exact (pull_takes_oldest 32 4 eq_refl eq_refl (Queue [1; 2; 3; 4] 0 2 2) 0
           wf_4_two eq_refl).
Defined.

Lemma peek_agrees_with_pull_witness :
  ∃ x q' i,
    head [3; 4] = Some x ∧
    queue_peek (Ref (Queue [1; 2; 3; 4] 0 2 2)) (Ref 0)
      = Some (QUEUE_OK, Ref (Queue [1; 2; 3; 4] 0 2 2), Ref x) ∧
    queue_peek_ptr (Ref (Queue [1; 2; 3; 4] 0 2 2)) = Some i ∧
    load [1; 2; 3; 4] i = Some x ∧
    queue_pull 32 4 (Ref (Queue [1; 2; 3; 4] 0 2 2)) (Ref 0)
      = Some (QUEUE_OK, Ref q', Ref x).
Proof.
  exact (proj2 (peek_agrees_with_pull 32 4 eq_refl eq_refl
                  (Queue [1; 2; 3; 4] 0 2 2) 0 wf_4_two) eq_refl).
Defined.

Lemma pull_multiple_partial_witness :
  ∃ q' out',
    queue_pull_multiple 32 4 (Ref (Queue [1; 2; 3; 4] 0 1 3))
      (Ref [0; 0; 0]) 2 (Ref 0)
      = Some (QUEUE_OK, Ref q', Ref out', Ref 2) ∧
    take 2 out' = [2; 3] ∧ drop 2 out' = [0] ∧
    length out' = 3%nat ∧
    wf 4 q' ∧ live q' = [4] ∧ count q' = 1.
Proof.
  exact (pull_multiple_partial 32 4 eq_refl eq_refl
           (Queue [1; 2; 3; 4] 0 1 3) [0; 0; 0] 2 (Ref 0) wf_4_three
           eq_refl eq_refl ltac:(simpl; lia)).
Defined.

Lemma pull_multiple_as_pulls_witness :
  ∃ q' out' rc',
    queue_pull_multiple 32 4 (Ref (Queue [1; 2; 3; 4] 0 1 3))
      (Ref [0; 0; 0]) 2 NULL
      = Some (QUEUE_OK, Ref q', Ref out', rc') ∧
    pull_each 32 4 (Ref (Queue [1; 2; 3; 4] 0 1 3)) 2 (Ref 0)
      = Some ((λ x, (QUEUE_OK, Ref x)) <$> take 2 out', Ref q').
Proof.
  exact (pull_multiple_as_pulls 32 4 eq_refl eq_refl
           (Queue [1; 2; 3; 4] 0 1 3) [0; 0; 0] 2 NULL 0 wf_4_three
           eq_refl eq_refl ltac:(simpl; lia)).
Defined.

Lemma fifo_any_state_witness :
  ∃ q1 q2,
    push_each 32 4 (Ref (Queue [1; 2; 3; 4] 0 1 3)) [5; 6; 7]
      = Some ([QUEUE_OK; QUEUE_OK; QUEUE_OK], Ref q1) ∧
    live q1 = [4; 5; 6; 7] ∧
    pull_each 32 4 (Ref q1) 4 (Ref 0)
      = Some ([(QUEUE_OK, Ref 4); (QUEUE_OK, Ref 5); (QUEUE_OK, Ref 6);
               (QUEUE_OK, Ref 7)], Ref q2) ∧
    count q2 = 0.
Proof.
  exact (fifo_any_state 32 4 eq_refl eq_refl (Queue [1; 2; 3; 4] 0 1 3)
           [5; 6; 7] 0 wf_4_three).
Defined.

Lemma indices_along_runs_witness :
  ∃ q,
    run 32 4
      [OpPush 1; OpPush 2; OpPush 3; OpPull (Ref 0); OpPush 4; OpPush 5;
       OpPullMultiple (Ref [0; 0]) 2 NULL; OpPushNoOverwrite 6]
      (queue_initialize (Ref (Queue [0; 0; 0; 0] 9 9 9))).2 = Some (Ref q) ∧
    length (buffer q) = 4%nat ∧
    write_index q = (read_index q + count q) `mod` 4 ∧
    (write_index q = read_index q ↔ count q = 0 ∨ count q = 4).
Proof.
  apply (indices_along_runs 32 4 eq_refl eq_refl
           (Queue [0; 0; 0; 0] 9 9 9)).
  - reflexivity.
  - repeat constructor. simpl. lia.
Defined.

Lemma push_no_overwrite_each_fills_witness :
  ∃ q', push_no_overwrite_each 32 4 (Ref (Queue [1; 2; 3; 4] 0 1 3)) [5; 6; 7]
          = Some ([QUEUE_OK; QUEUE_ERROR_FULL; QUEUE_ERROR_FULL], Ref q') ∧
        wf 4 q' ∧ live q' = [2; 3; 4; 5].
Proof.
  exact (push_no_overwrite_each_fills 32 4 eq_refl eq_refl [5; 6; 7]
           (Queue [1; 2; 3; 4] 0 1 3) wf_4_three).
Defined.

Lemma push_string_stored_witness :
  ∃ q' e,
    queue_push_with_string_support 32 4 2
      (Ref (Queue [Str [NUL; NUL; NUL; NUL]; Str [NUL; NUL; NUL; NUL]] 0 0 0))
      (Ref ["H"; "e"; "l"; "l"; "o"; NUL]%char) (Str ["?"; "?"; "?"; "?"]%char)
      = Some (Ref q') ∧
    queue_push_with_string_support 32 4 2
      (Ref (Queue [Str [NUL; NUL; NUL; NUL]; Str [NUL; NUL; NUL; NUL]] 0 0 0))
      (Ref ["H"; "e"; "l"; "l"; "o"; NUL]%char) (Str ["!"; "!"; "!"; "!"]%char)
      = Some (Ref q') ∧
    wf 2 q' ∧ live q' = [e] ∧
    length (data e) = 4%nat ∧ data e !! 3%nat = Some NUL ∧
    c_str (data e) = ["H"; "e"; "l"]%char.
Proof.
  exact (push_string_stored 32 4 2 eq_refl eq_refl eq_refl eq_refl
           (Queue [Str [NUL; NUL; NUL; NUL]; Str [NUL; NUL; NUL; NUL]] 0 0 0)
           ["H"; "e"; "l"; "l"; "o"]%char [] (Str ["?"; "?"; "?"; "?"]%char)
           (Str ["!"; "!"; "!"; "!"]%char) wf_2_fresh eq_refl eq_refl
           ltac:(repeat first [done | constructor])).
Defined.

(** "Hi" fits both capacities and comes back whole. *)
Lemma string_round_trip_witness :
  ∃ q1 older q2 q3 out',
    queue_push_with_string_support 32 4 2
      (Ref (Queue [Str [NUL; NUL; NUL; NUL]; Str [NUL; NUL; NUL; NUL]] 0 0 0))
      (Ref ["H"; "i"; NUL]%char) (Str ["?"; "?"; "?"; "?"]%char)
      = Some (Ref q1) ∧
    pull_each 32 2 (Ref q1) (Z.to_nat (count q1 - 1)) (Ref (Str []))
      = Some (older, Ref q2) ∧
    queue_pull_with_string_support 32 2 (Ref q2)
      (Ref ["x"; "x"; "x"; "x"; "x"; "x"]%char) 5 (Str [])
      = Some (1, Ref q3, Ref out') ∧
    c_str out' = ["H"; "i"]%char ∧
    (2 < 4 `min` 5 → c_str out' = ["H"; "i"]%char) ∧
    length out' = 6%nat ∧
    out' !! 4%nat = Some NUL ∧
    drop 5 out' = ["x"%char].
Proof.
  exact (string_round_trip 32 4 2 eq_refl eq_refl eq_refl eq_refl
           (Queue [Str [NUL; NUL; NUL; NUL]; Str [NUL; NUL; NUL; NUL]] 0 0 0)
           ["H"; "i"]%char [] (Str ["?"; "?"; "?"; "?"]%char) (Str [])
           (Str []) ["x"; "x"; "x"; "x"; "x"; "x"]%char 5
           wf_2_fresh eq_refl ltac:(repeat first [done | constructor])
           ltac:(done) ltac:(simpl; lia)).
Defined.

(** A logger with a buffer of sixteen characters; the handler is numbered
    1. *)
Lemma log_write_silent_witness :
  log_write 32 16 (LogState (Ref 1%nat) false LOG_LEVEL_DEBUG) LOG_LEVEL_ERROR
    ["A"; "P"]%char (Ref (Formatted ["h"; "i"]%char)) = Some None.
Proof.
  exact (log_write_silent 32 16 eq_refl
           (LogState (Ref 1%nat) false LOG_LEVEL_DEBUG) LOG_LEVEL_ERROR
           ["A"; "P"]%char (Ref (Formatted ["h"; "i"]%char))
           (or_introl eq_refl)).
Defined.

Lemma log_write_line_witness :
  ∃ pad,
    log_write 32 16 (LogState (Ref 1%nat) true LOG_LEVEL_DEBUG) LOG_LEVEL_INFO
      ["A"; "P"]%char (Ref (Formatted ["h"; "i"]%char))
      = Some (Some (1%nat,
                    ["["; "I"; "]"; " "; "("; "A"; "P"; ")"; ":"; " ";
                     "h"; "i"; CR; LF]%char ++ replicate pad NUL)) ∧
    Z.of_nat pad = 2 ∧ (0 < pad)%nat.
Proof.
  exact (log_write_line 32 16 eq_refl eq_refl
           (LogState (Ref 1%nat) true LOG_LEVEL_DEBUG) LOG_LEVEL_INFO
           ["A"; "P"]%char ["h"; "i"]%char 1%nat
           ltac:(split; [done|simpl; lia]) eq_refl eq_refl).
Defined.

Lemma log_write_truncates_witness :
  log_write 32 16 (LogState (Ref 1%nat) true LOG_LEVEL_DEBUG) LOG_LEVEL_INFO
    ["A"; "P"]%char
    (Ref (Formatted ["h"; "e"; "l"; "l"; "o"; " "; "w"; "o"; "r"; "l"; "d"]%char))
    = Some (Some (1%nat,
                  ["["; "I"; "]"; " "; "("; "A"; "P"; ")"; ":"; " ";
                   "h"; "e"; "l"; CR; LF; NUL]%char)).
Proof.
  exact (log_write_truncates 32 16 eq_refl eq_refl
           (LogState (Ref 1%nat) true LOG_LEVEL_DEBUG) LOG_LEVEL_INFO
           ["A"; "P"]%char
           ["h"; "e"; "l"; "l"; "o"; " "; "w"; "o"; "r"; "l"; "d"]%char 1%nat
           ltac:(split; [done|simpl; lia]) eq_refl eq_refl
           ltac:(simpl; lia)).
Defined.

Lemma log_write_no_line_ending_witness :
  ∃ pad,
    log_write 32 16 (LogState (Ref 1%nat) true LOG_LEVEL_DEBUG) LOG_LEVEL_INFO
      ["A"; "P"]%char (Ref (Formatted ["h"; "e"; "l"; "l"]%char))
      = Some (Some (1%nat,
                    ["["; "I"; "]"; " "; "("; "A"; "P"; ")"; ":"; " ";
                     "h"; "e"; "l"; "l"]%char ++ replicate pad NUL)) ∧
    (1 ≤ pad ≤ 2)%nat.
Proof.
  exact (log_write_no_line_ending 32 16 eq_refl eq_refl
           (LogState (Ref 1%nat) true LOG_LEVEL_DEBUG) LOG_LEVEL_INFO
           ["A"; "P"]%char ["h"; "e"; "l"; "l"]%char 1%nat
           ltac:(split; [done|simpl; lia]) eq_refl ltac:(simpl; lia)).
Defined.

Lemma log_write_safe_witness :
  ∃ r,
    log_write 32 16 (LogState (Ref 1%nat) true LOG_LEVEL_DEBUG) LOG_LEVEL_NONE
      ["A"; "P"]%char (Ref (Formatted ["h"; "i"]%char)) = Some r ∧
    ∀ h buf, r = Some (h, buf) →
      Ref 1%nat = Ref h ∧
      (true = true ∧ 0 ≤ 4) ∧
      Z.of_nat (length buf) = 16 ∧ last buf = Some NUL.
Proof.
  exact (log_write_safe 32 16 eq_refl eq_refl
           (LogState (Ref 1%nat) true LOG_LEVEL_DEBUG) LOG_LEVEL_NONE
           ["A"; "P"]%char (Ref (Formatted ["h"; "i"]%char))).
Defined.

